(** * jinja2.utils.LRUCache: a shallow embedding and its properties

    The class under study is [LRUCache] of [src/jinja2/utils.py]: a
    dictionary (the store), a [collections.deque] of keys (the recency
    queue, least recently used key first) and a [threading.Lock].

    Python objects live on a heap: every dict, deque, lock and instance has
    an address, instance attributes hold references, and the methods of the
    class are programs over a small set of atomic primitives (one primitive
    per call into the interpreter's dict, deque, lock and attribute
    machinery).  Programs are run sequentially by [run]; the last part on
    the cache interleaves the primitive steps of several threads.

    The smaller helpers of the same file follow, each in a module of its
    own, with the instance passed through the calls: [Cycler], [Joiner],
    [Namespace], [htmlsafe_json_dumps], [import_string] and
    [select_autoescape]. *)

From stdpp Require Import gmap strings list fin_maps.
From Stdlib Require Import ZArith.

(** ** Addresses, exceptions and attribute values *)

Definition loc := positive.

(** The exception classes the methods can meet. *)
Inductive exn :=
| KeyError | IndexError | ValueError | AttributeError | TypeError | RuntimeError.

#[global] Instance exn_eq_dec : EqDecision exn.
Proof. solve_decision. Defined.

(** The deque methods that [_postinit] binds to instance attributes. *)
Inductive deque_method := m_popleft | m_pop | m_remove | m_append.

#[global] Instance deque_method_eq_dec : EqDecision deque_method.
Proof. solve_decision. Defined.

(** What an attribute of an instance can hold: an integer, a reference to a
    dict, a deque or a lock, or a method bound to a deque. *)
Inductive value :=
| VInt (z : Z)
| VDict (d : loc)
| VDeque (q : loc)
| VLock (l : loc)
| VMeth (q : loc) (m : deque_method).

#[global] Instance value_eq_dec : EqDecision value.
Proof. solve_decision. Defined.

(** [deque.remove(x)]: drops the first occurrence, [None] when there is none
    (Python raises [ValueError]). *)
Fixpoint remove_first `{EqDecision A} (x : A) (l : list A) : option (list A) :=
  match l with
  | [] => None
  | y :: l' => if decide (y = x) then Some l'
               else cons y <$> remove_first x l'
  end.

Section model.
Context {K V : Type} `{Countable K}.

(** ** The heap *)

Record heap := mkHeap {
  objs : gmap loc (gmap string value);   (* instance [__dict__]s *)
  dicts : gmap loc (gmap K V);
  deques : gmap loc (list K);
  locks : gmap loc bool                  (* [true]: held *)
}.

Definition empty_heap : heap := mkHeap ∅ ∅ ∅ ∅.

Definition set_objs (f : gmap loc (gmap string value) → gmap loc (gmap string value))
    (h : heap) : heap :=
  mkHeap (f (objs h)) (dicts h) (deques h) (locks h).
Definition set_dicts (f : gmap loc (gmap K V) → gmap loc (gmap K V)) (h : heap) : heap :=
  mkHeap (objs h) (f (dicts h)) (deques h) (locks h).
Definition set_deques (f : gmap loc (list K) → gmap loc (list K)) (h : heap) : heap :=
  mkHeap (objs h) (dicts h) (f (deques h)) (locks h).
Definition set_locks (f : gmap loc bool → gmap loc bool) (h : heap) : heap :=
  mkHeap (objs h) (dicts h) (deques h) (f (locks h)).

(** ** Primitives

    Each constructor is one atomic step.  A primitive that Python answers
    with an exception returns [None] or [false]; the program that issued it
    raises the exception. *)
Inductive prim : Type → Type :=
| ObjectNew : prim loc                                    (* object.__new__(cls) *)
| GetAttr (self : loc) (a : string) : prim (option value) (* self.a *)
| SetAttr (self : loc) (a : string) (v : value) : prim unit   (* self.a = v *)
| UpdateAttrs (self : loc) (d : gmap string value) : prim unit (* self.__dict__.update(d) *)
| LockNew : prim loc                                      (* Lock() *)
| LockAcquire (l : loc) : prim unit                       (* l.acquire() *)
| LockRelease (l : loc) : prim bool                       (* l.release() *)
| DictNew : prim loc                                      (* {} *)
| DictGet (d : loc) (k : K) : prim (option V)             (* d[k] *)
| DictContains (d : loc) (k : K) : prim bool              (* k in d *)
| DictLen (d : loc) : prim nat                            (* len(d) *)
| DictSet (d : loc) (k : K) (v : V) : prim unit           (* d[k] = v *)
| DictDel (d : loc) (k : K) : prim bool                   (* del d[k] *)
| DictClear (d : loc) : prim unit                         (* d.clear() *)
| DictUpdate (d src : loc) : prim unit                    (* d.update(src) *)
| DequeNew : prim loc                                     (* deque() *)
| DequeLast (q : loc) : prim (option K)                   (* q[-1] *)
| DequeRemove (q : loc) (k : K) : prim bool               (* q.remove(k) *)
| DequeAppend (q : loc) (k : K) : prim unit               (* q.append(k) *)
| DequePopleft (q : loc) : prim (option K)                (* q.popleft() *)
| DequePop (q : loc) : prim (option K)                    (* q.pop() *)
| DequeClear (q : loc) : prim unit                        (* q.clear() *)
| DequeExtend (q src : loc) : prim unit                   (* q.extend(src) *)
| DequeList (q : loc) : prim (list K).                    (* list(q), tuple(q) *)

(** One primitive step.  [None]: the step cannot be taken, either because the
    lock is held by someone else ([acquire] blocks) or because the address
    does not name an object of the expected kind, which no Python program
    can bring about. *)
Definition exec {X} (o : prim X) (h : heap) : option (X * heap) :=
  match o in prim X return option (X * heap) with
  | ObjectNew =>
      let l := fresh (dom (objs h)) in
      Some (l, set_objs (insert l ∅) h)
  | GetAttr self a =>
      i ← objs h !! self; Some (i !! a, h)
  | SetAttr self a v =>
      i ← objs h !! self; Some (tt, set_objs (insert self (<[a:=v]> i)) h)
  | UpdateAttrs self d =>
      i ← objs h !! self; Some (tt, set_objs (insert self (d ∪ i)) h)
  | LockNew =>
      let l := fresh (dom (locks h)) in
      Some (l, set_locks (insert l false) h)
  | LockAcquire l =>
      b ← locks h !! l;
      if b : bool then None else Some (tt, set_locks (insert l true) h)
  | LockRelease l =>
      b ← locks h !! l;
      if b : bool then Some (true, set_locks (insert l false) h) else Some (false, h)
  | DictNew =>
      let l := fresh (dom (dicts h)) in
      Some (l, set_dicts (insert l ∅) h)
  | DictGet d k =>
      m ← dicts h !! d; Some (m !! k, h)
  | DictContains d k =>
      m ← dicts h !! d; Some (bool_decide (is_Some (m !! k)), h)
  | DictLen d =>
      m ← dicts h !! d; Some (size m, h)
  | DictSet d k v =>
      m ← dicts h !! d; Some (tt, set_dicts (insert d (<[k:=v]> m)) h)
  | DictDel d k =>
      m ← dicts h !! d;
      match m !! k with
      | Some _ => Some (true, set_dicts (insert d (delete k m)) h)
      | None => Some (false, h)
      end
  | DictClear d =>
      m ← dicts h !! d; Some (tt, set_dicts (insert d ∅) h)
  | DictUpdate d src =>
      m ← dicts h !! d; m' ← dicts h !! src;
      Some (tt, set_dicts (insert d (m' ∪ m)) h)
  | DequeNew =>
      let l := fresh (dom (deques h)) in
      Some (l, set_deques (insert l []) h)
  | DequeLast q =>
      ks ← deques h !! q; Some (last ks, h)
  | DequeRemove q k =>
      ks ← deques h !! q;
      match remove_first k ks with
      | Some ks' => Some (true, set_deques (insert q ks') h)
      | None => Some (false, h)
      end
  | DequeAppend q k =>
      ks ← deques h !! q; Some (tt, set_deques (insert q (ks ++ [k])) h)
  | DequePopleft q =>
      ks ← deques h !! q;
      match ks with
      | k :: ks' => Some (Some k, set_deques (insert q ks') h)
      | [] => Some (None, h)
      end
  | DequePop q =>
      ks ← deques h !! q;
      match last ks with
      | Some k => Some (Some k, set_deques (insert q (removelast ks)) h)
      | None => Some (None, h)
      end
  | DequeClear q =>
      ks ← deques h !! q; Some (tt, set_deques (insert q []) h)
  | DequeExtend q src =>
      ks ← deques h !! q; ks' ← deques h !! src;
      Some (tt, set_deques (insert q (ks ++ ks')) h)
  | DequeList q =>
      ks ← deques h !! q; Some (ks, h)
  end.

(** ** Programs *)

Inductive prog (A : Type) : Type :=
| Ret (a : A)
| Raise (e : exn)
| Op {X : Type} (o : prim X) (k : X → prog A).
Global Arguments Ret {A} a.
Global Arguments Raise {A} e.
Global Arguments Op {A X} o k.

Fixpoint prog_bind {A B} (f : A → prog B) (p : prog A) : prog B :=
  match p with
  | Ret a => f a
  | Raise e => Raise e
  | Op o k => Op o (λ x, prog_bind f (k x))
  end.

Global Instance prog_mret : MRet prog := @Ret.
Global Instance prog_mbind : MBind prog := @prog_bind.

Definition perform {X} (o : prim X) : prog X := Op o Ret.

(** [try: p except e: handler] *)
Fixpoint try_except {A} (p : prog A) (e : exn) (handler : prog A) : prog A :=
  match p with
  | Ret a => Ret a
  | Raise e' => if decide (e' = e) then handler else Raise e'
  | Op o k => Op o (λ x, try_except (k x) e handler)
  end.

(** [try: p finally: fin] *)
Fixpoint try_finally {A} (p : prog A) (fin : prog unit) : prog A :=
  match p with
  | Ret a => fin;; Ret a
  | Raise e => fin;; Raise e
  | Op o k => Op o (λ x, try_finally (k x) fin)
  end.

Fixpoint for_each {A B} (f : A → prog B) (l : list A) : prog (list B) :=
  match l with
  | [] => Ret []
  | a :: l' => b ← f a; bs ← for_each f l'; Ret (b :: bs)
  end.

(** How a call ends. *)
Inductive outcome (A : Type) :=
| Returned (a : A)
| Raised (e : exn).
Global Arguments Returned {A} a.
Global Arguments Raised {A} e.

(** Sequential execution: [None] when some primitive cannot be taken. *)
Fixpoint run {A} (p : prog A) (h : heap) : option (outcome A * heap) :=
  match p with
  | Ret a => Some (Returned a, h)
  | Raise e => Some (Raised e, h)
  | Op o k =>
      match exec o h with
      | Some (x, h') => run (k x) h'
      | None => None
      end
  end.

(** ** Attribute access and calls through attributes *)

Definition getattr (self : loc) (a : string) : prog value :=
  r ← perform (GetAttr self a);
  match r with
  | Some v => Ret v
  | None => Raise AttributeError
  end.

Definition as_dict (v : value) : prog loc :=
  match v with VDict d => Ret d | _ => Raise TypeError end.
Definition as_deque (v : value) : prog loc :=
  match v with VDeque q => Ret q | _ => Raise TypeError end.
Definition as_lock (v : value) : prog loc :=
  match v with VLock l => Ret l | _ => Raise TypeError end.

(** [self._mapping], [self._queue], [self._wlock] used as what they are. *)
Definition mapping_of (self : loc) : prog loc := getattr self "_mapping" ≫= as_dict.
Definition queue_of (self : loc) : prog loc := getattr self "_queue" ≫= as_deque.
Definition wlock_of (self : loc) : prog loc := getattr self "_wlock" ≫= as_lock.

(** [self.a()] for an attribute holding a bound deque method. *)
Definition call0 (self : loc) (a : string) : prog K :=
  v ← getattr self a;
  match v with
  | VMeth q m_popleft =>
      r ← perform (DequePopleft q);
      match r with Some k => Ret k | None => Raise IndexError end
  | VMeth q m_pop =>
      r ← perform (DequePop q);
      match r with Some k => Ret k | None => Raise IndexError end
  | _ => Raise TypeError
  end.

(** [self.a(key)] for an attribute holding a bound deque method. *)
Definition call1 (self : loc) (a : string) (key : K) : prog unit :=
  v ← getattr self a;
  match v with
  | VMeth q m_remove =>
      b ← perform (DequeRemove q key);
      if b : bool then Ret tt else Raise ValueError
  | VMeth q m_append => perform (DequeAppend q key)
  | _ => Raise TypeError
  end.

Definition wlock_acquire (self : loc) : prog unit :=
  l ← wlock_of self; perform (LockAcquire l).

Definition wlock_release (self : loc) : prog unit :=
  l ← wlock_of self;
  b ← perform (LockRelease l);
  if b : bool then Ret tt else Raise RuntimeError.

(** [d[key]] *)
Definition dict_getitem (d : loc) (key : K) : prog V :=
  r ← perform (DictGet d key);
  match r with Some v => Ret v | None => Raise KeyError end.

(** [del d[key]] *)
Definition dict_delitem (d : loc) (key : K) : prog unit :=
  b ← perform (DictDel d key);
  if b : bool then Ret tt else Raise KeyError.

(** ** The class [LRUCache] *)

(** [_postinit]: binds the queue methods to attributes and makes a new
    lock (utils.py, lines 412-418). *)
Definition _postinit (self : loc) : prog unit :=
  q ← queue_of self; perform (SetAttr self "_popleft" (VMeth q m_popleft));;
  q ← queue_of self; perform (SetAttr self "_pop" (VMeth q m_pop));;
  q ← queue_of self; perform (SetAttr self "_remove" (VMeth q m_remove));;
  l ← perform LockNew; perform (SetAttr self "_wlock" (VLock l));;
  q ← queue_of self; perform (SetAttr self "_append" (VMeth q m_append)).

(** [__init__] (lines 406-410). *)
Definition __init__ (self : loc) (capacity : value) : prog unit :=
  perform (SetAttr self "capacity" capacity);;
  d ← perform DictNew; perform (SetAttr self "_mapping" (VDict d));;
  q ← perform DequeNew; perform (SetAttr self "_queue" (VDeque q));;
  _postinit self.

(** [LRUCache(capacity)] *)
Definition LRUCache (capacity : value) : prog loc :=
  self ← perform ObjectNew;
  __init__ self capacity;;
  Ret self.

(** [__getstate__] and [__setstate__] (lines 420-429): the state is a dict
    with the capacity and the references to the store and the queue. *)
Definition __getstate__ (self : loc) : prog (gmap string value) :=
  c ← getattr self "capacity";
  m ← getattr self "_mapping";
  q ← getattr self "_queue";
  Ret (<["capacity":=c]> (<["_mapping":=m]> (<["_queue":=q]> ∅))).

Definition __setstate__ (self : loc) (d : gmap string value) : prog unit :=
  perform (UpdateAttrs self d);;
  _postinit self.

(** [__getnewargs__] (lines 431-432). *)
Definition __getnewargs__ (self : loc) : prog value :=
  getattr self "capacity".

(** [copy] (lines 434-439): a new instance of the same capacity, its store
    updated from, and its queue extended by, those of [self]. *)
Definition copy (self : loc) : prog loc :=
  c ← getattr self "capacity";
  rv ← LRUCache c;
  d' ← mapping_of rv; d ← mapping_of self; perform (DictUpdate d' d);;
  q' ← queue_of rv; q ← queue_of self; perform (DequeExtend q' q);;
  Ret rv.

(** [__getitem__] (lines 478-498): under the lock, looks [key] up and,
    unless it is the last key of the queue already, removes it from the
    queue (a [ValueError] of [remove] is passed over) and appends it. *)
Definition __getitem__ (self : loc) (key : K) : prog V :=
  wlock_acquire self;;
  try_finally
    (d ← mapping_of self;
     rv ← dict_getitem d key;
     q ← queue_of self;
     r ← perform (DequeLast q);
     back ← match r with Some k => Ret k | None => Raise IndexError end;
     (if decide (back ≠ key) then
        try_except (call1 self "_remove" key) ValueError (Ret tt);;
        call1 self "_append" key
      else Ret tt);;
     Ret rv)
    (wlock_release self).

(** [__setitem__] (lines 500-513): under the lock, a present key is removed
    from the queue; for an absent key, when [len(self._mapping)] equals
    the capacity, the key that [popleft] returns is deleted from the store;
    then [key] is appended to the queue and stored. *)
Definition __setitem__ (self : loc) (key : K) (value : V) : prog unit :=
  wlock_acquire self;;
  try_finally
    (d ← mapping_of self;
     present ← perform (DictContains d key);
     (if present : bool then call1 self "_remove" key
      else
        d ← mapping_of self;
        n ← perform (DictLen d);
        c ← getattr self "capacity";
        if decide (VInt (Z.of_nat n) = c) then
          d ← mapping_of self;
          k ← call0 self "_popleft";
          dict_delitem d k
        else Ret tt);;
     call1 self "_append" key;;
     d ← mapping_of self;
     perform (DictSet d key value))
    (wlock_release self).

(** [__delitem__] (lines 515-527): under the lock, deletes [key] from the
    store and then from the queue (a [ValueError] of [remove] is passed
    over). *)
Definition __delitem__ (self : loc) (key : K) : prog unit :=
  wlock_acquire self;;
  try_finally
    (d ← mapping_of self;
     dict_delitem d key;;
     try_except (call1 self "_remove" key) ValueError (Ret tt))
    (wlock_release self).

(** [get] (lines 441-446) and [setdefault] (lines 448-456): both go through
    [self[key]] and catch [KeyError]. *)
Definition get (self : loc) (key : K) (default : V) : prog V :=
  try_except (__getitem__ self key) KeyError (Ret default).

Definition setdefault (self : loc) (key : K) (default : V) : prog V :=
  try_except (__getitem__ self key) KeyError
    (__setitem__ self key default;; Ret default).

(** [clear] (lines 458-465). *)
Definition clear (self : loc) : prog unit :=
  wlock_acquire self;;
  try_finally
    (d ← mapping_of self; perform (DictClear d);;
     q ← queue_of self; perform (DequeClear q))
    (wlock_release self).

(** [__contains__] and [__len__] (lines 467-473): no lock. *)
Definition __contains__ (self : loc) (key : K) : prog bool :=
  d ← mapping_of self; perform (DictContains d key).

Definition __len__ (self : loc) : prog nat :=
  d ← mapping_of self; perform (DictLen d).

(** [items] (lines 529-533): the queue is listed first, then each of its keys
    is looked up in the store, and the result is reversed; no lock.
    [values], [keys], [__iter__] and [__reversed__] (lines 535-550). *)
Definition items (self : loc) : prog (list (K * V)) :=
  q ← queue_of self;
  ks ← perform (DequeList q);
  result ← for_each (λ key, d ← mapping_of self; v ← dict_getitem d key; Ret (key, v)) ks;
  Ret (reverse result).

Definition values (self : loc) : prog (list V) :=
  its ← items self; Ret (map snd its).

Definition __iter__ (self : loc) : prog (list K) :=
  q ← queue_of self; ks ← perform (DequeList q); Ret (reverse ks).

Definition __reversed__ (self : loc) : prog (list K) :=
  q ← queue_of self; perform (DequeList q).

Definition keys (self : loc) : prog (list K) := __iter__ self.

(** How [pickle] and [copy.deepcopy] rebuild an instance from the state [d]
    that [__getstate__] gave them: [cls.__new__(cls)], which runs no
    [__init__], and then [__setstate__(d)]. *)
Definition reconstruct (d : gmap string value) : prog loc :=
  new ← perform ObjectNew;
  __setstate__ new d;;
  Ret new.

(** ** One cache on the heap *)

Implicit Types (h : heap) (m : gmap K V) (ks : list K) (key : K).

(** The addresses of the three objects an instance refers to. *)
Record refs := mkRefs { r_dict : loc; r_deque : loc; r_lock : loc }.

(** The attribute dictionary of an initialised instance. *)
Definition instance_of (c : value) (r : refs) : gmap string value :=
  <["capacity" := c]> (
  <["_mapping" := VDict (r_dict r)]> (
  <["_queue" := VDeque (r_deque r)]> (
  <["_popleft" := VMeth (r_deque r) m_popleft]> (
  <["_pop" := VMeth (r_deque r) m_pop]> (
  <["_remove" := VMeth (r_deque r) m_remove]> (
  <["_wlock" := VLock (r_lock r)]> (
  <["_append" := VMeth (r_deque r) m_append]> ∅))))))).

(** [self] is an initialised cache of capacity [c] whose store holds [m],
    whose queue holds [ks] and whose lock is free. *)
Record cache_at h (self : loc) (c : value) (r : refs) m ks : Prop := {
  at_obj : objs h !! self = Some (instance_of c r);
  at_dict : dicts h !! r_dict r = Some m;
  at_deque : deques h !! r_deque r = Some ks;
  at_lock : locks h !! r_lock r = Some false
}.

(** The heap with the store and the queue behind [r] replaced. *)
Definition put (r : refs) m ks h : heap :=
  set_deques (insert (r_deque r) ks) (set_dicts (insert (r_dict r) m) h).

(** The heap [h] with the store, the queue and the lock behind [r] set. *)
Definition cur (r : refs) (b : bool) m ks h : heap :=
  mkHeap (objs h) (<[r_dict r := m]> (dicts h)) (<[r_deque r := ks]> (deques h))
         (<[r_lock r := b]> (locks h)).

(** The invariants of the data model: the store and the queue hold the same
    keys, the queue holds no key twice, and the store holds at most
    [cap] entries. *)
Definition inv (cap : Z) m ks : Prop :=
  dom m = list_to_set ks ∧ NoDup ks ∧ (Z.of_nat (size m) ≤ cap)%Z.

(** What the body of [__getitem__] does to the store and the queue. *)
Definition getitem_effect m ks key : outcome V * (gmap K V * list K) :=
  match m !! key with
  | None => (Raised KeyError, (m, ks))
  | Some v =>
      match last ks with
      | None => (Raised IndexError, (m, ks))
      | Some back =>
          if decide (back ≠ key)
          then (Returned v, (m, default ks (remove_first key ks) ++ [key]))
          else (Returned v, (m, ks))
      end
  end.

(** What the body of [__setitem__] does to the store and the queue. *)
Definition setitem_effect (c : value) m ks key (v : V) : outcome unit * (gmap K V * list K) :=
  match m !! key with
  | Some _ =>
      match remove_first key ks with
      | Some ks' => (Returned tt, (<[key:=v]> m, ks' ++ [key]))
      | None => (Raised ValueError, (m, ks))
      end
  | None =>
      if decide (VInt (Z.of_nat (size m)) = c) then
        match ks with
        | [] => (Raised IndexError, (m, ks))
        | k :: ks' =>
            match m !! k with
            | Some _ => (Returned tt, (<[key:=v]> (delete k m), ks' ++ [key]))
            | None => (Raised KeyError, (m, ks'))
            end
        end
      else (Returned tt, (<[key:=v]> m, ks ++ [key]))
  end.

(** What the body of [__delitem__] does to the store and the queue. *)
Definition delitem_effect m ks key : outcome unit * (gmap K V * list K) :=
  match m !! key with
  | None => (Raised KeyError, (m, ks))
  | Some _ => (Returned tt, (delete key m, default ks (remove_first key ks)))
  end.

(** The addresses a constructor call on [h] allocates, and the heap with a
    new cache of capacity [c], store [m] and queue [ks] at these addresses. *)
Definition fresh_obj h : loc := fresh (dom (objs h)).
Definition fresh_refs h : refs :=
  mkRefs (fresh (dom (dicts h))) (fresh (dom (deques h))) (fresh (dom (locks h))).
Definition alloc (c : value) m ks h : heap :=
  mkHeap (<[fresh_obj h := instance_of c (fresh_refs h)]> (objs h))
         (<[r_dict (fresh_refs h) := m]> (dicts h))
         (<[r_deque (fresh_refs h) := ks]> (deques h))
         (<[r_lock (fresh_refs h) := false]> (locks h)).

(** What [items] computes from the store and the queue. *)
Definition items_effect m ks : outcome (list (K * V)) :=
  from_option (λ its, Returned (reverse its)) (Raised KeyError)
    (mapM (λ k, pair k <$> m !! k) ks).

(** What [setdefault] does to the store and the queue: the effect of
    [__getitem__], and on [KeyError] the effect of [__setitem__]. *)
Definition setdefault_effect (c : value) m ks key (default : V)
    : outcome V * (gmap K V * list K) :=
  match getitem_effect m ks key with
  | (Raised KeyError, (m', ks')) =>
      match setitem_effect c m' ks' key default with
      | (Returned _, s) => (Returned default, s)
      | (Raised e, s) => (Raised e, s)
      end
  | x => x
  end.

(** The state [__getstate__] returns for a cache of capacity [c] whose store
    is at [dl] and whose queue is at [ql]. *)
Definition state_of (c : value) (dl ql : loc) : gmap string value :=
  <["capacity":=c]> (<["_mapping":=VDict dl]> (<["_queue":=VDeque ql]> ∅)).

(** The heap after [reconstruct (state_of c dl ql)]. *)
Definition rebuilt (c : value) (dl ql : loc) h : heap :=
  mkHeap (<[fresh_obj h := instance_of c (mkRefs dl ql (r_lock (fresh_refs h)))]> (objs h))
         (dicts h) (deques h)
         (<[r_lock (fresh_refs h) := false]> (locks h)).

(** What the reading methods answer on the cache at [x], [__contains__]
    being asked for the keys [probe]. *)
Definition observe h (x : loc) (probe : list K) :=
  (fst <$> run (items x) h, fst <$> run (values x) h, fst <$> run (keys x) h,
   fst <$> run (__iter__ x) h, fst <$> run (__reversed__ x) h,
   fst <$> run (__len__ x) h,
   (λ key, fst <$> run (__contains__ x key) h) <$> probe).

(** What an observer of the cache at [self] can see: its capacity, the
    contents of its store and the order of its queue. *)
Definition view h (self : loc) : option (value * gmap K V * list K) :=
  i ← objs h !! self;
  c ← i !! "capacity";
  vd ← i !! "_mapping";
  vq ← i !! "_queue";
  match vd, vq with
  | VDict d, VDeque q => m ← dicts h !! d; ks ← deques h !! q; Some (c, m, ks)
  | _, _ => None
  end.

(** ** Sequences of calls *)

Inductive call :=
| CallGetitem (self : loc) (key : K)                  (* self[key] *)
| CallGet (self : loc) (key : K) (default : V)        (* self.get(key, default) *)
| CallSetdefault (self : loc) (key : K) (default : V) (* self.setdefault(key, default) *)
| CallSetitem (self : loc) (key : K) (v : V)          (* self[key] = v *)
| CallDelitem (self : loc) (key : K)                  (* del self[key] *)
| CallClear (self : loc)
| CallCopy (self : loc)
| CallItems (self : loc)
| CallValues (self : loc)
| CallKeys (self : loc)
| CallIter (self : loc)
| CallReversed (self : loc)
| CallContains (self : loc) (key : K)
| CallLen (self : loc).

Definition target (cl : call) : loc :=
  match cl with
  | CallGetitem self _ | CallGet self _ _ | CallSetdefault self _ _
  | CallSetitem self _ _ | CallDelitem self _ | CallClear self | CallCopy self
  | CallItems self | CallValues self | CallKeys self | CallIter self
  | CallReversed self | CallContains self _ | CallLen self => self
  end.

(** The call as a program; what it returns is dropped. *)
Definition do_call (cl : call) : prog unit :=
  match cl with
  | CallGetitem self key => __getitem__ self key;; Ret tt
  | CallGet self key default => get self key default;; Ret tt
  | CallSetdefault self key default => setdefault self key default;; Ret tt
  | CallSetitem self key v => __setitem__ self key v
  | CallDelitem self key => __delitem__ self key
  | CallClear self => clear self
  | CallCopy self => copy self;; Ret tt
  | CallItems self => items self;; Ret tt
  | CallValues self => values self;; Ret tt
  | CallKeys self => keys self;; Ret tt
  | CallIter self => __iter__ self;; Ret tt
  | CallReversed self => __reversed__ self;; Ret tt
  | CallContains self key => __contains__ self key;; Ret tt
  | CallLen self => __len__ self;; Ret tt
  end.

(** One call after the other, each run to its end, whether it returns or
    raises. *)
Fixpoint run_calls (cls : list call) h : option heap :=
  match cls with
  | [] => Some h
  | cl :: cls' =>
      match run (do_call cl) h with
      | Some (_, h') => run_calls cls' h'
      | None => None
      end
  end.

(** Every instance on the heap is an initialised cache that satisfies the
    invariants, and no two instances share a store, a queue or a lock. *)
Record heap_inv h : Prop := {
  hi_caches : ∀ self i, objs h !! self = Some i →
    ∃ cap r m ks, cache_at h self (VInt cap) r m ks ∧ inv cap m ks;
  hi_apart : ∀ s1 s2 c1 c2 r1 r2,
    s1 ≠ s2 →
    objs h !! s1 = Some (instance_of c1 r1) →
    objs h !! s2 = Some (instance_of c2 r2) →
    r_dict r1 ≠ r_dict r2 ∧ r_deque r1 ≠ r_deque r2 ∧ r_lock r1 ≠ r_lock r2
}.

(** What a call on the cache at [self] may do to the heap: the invariants
    still hold, every other cache looks as before, and no instance is lost
    or changes its attributes. *)
Definition step_ok h (self : loc) h' : Prop :=
  heap_inv h' ∧
  (∀ x, x ≠ self → is_Some (objs h !! x) → view h' x = view h x) ∧
  (∀ x i, objs h !! x = Some i → objs h' !! x = Some i).

(** ** Threads

    Several threads run programs on one heap.  A step of the system is one
    primitive of one thread; a thread whose next primitive cannot be taken
    (its [acquire] finds the lock held) cannot be scheduled. *)


















(** ** Running composite programs *)

Definition bind_run {A B} (x : option (outcome A * heap))
    (f : A → heap → option (outcome B * heap)) : option (outcome B * heap) :=
  match x with
  | Some (Returned a, h') => f a h'
  | Some (Raised e, h') => Some (Raised e, h')
  | None => None
  end.

Definition except_run {A} (x : option (outcome A * heap)) (e : exn)
    (f : heap → option (outcome A * heap)) : option (outcome A * heap) :=
  match x with
  | Some (Raised e', h') => if decide (e' = e) then f h' else Some (Raised e', h')
  | _ => x
  end.

Definition finally_run {A} (x : option (outcome A * heap))
    (f : heap → option (outcome unit * heap)) : option (outcome A * heap) :=
  match x with
  | Some (o, h') =>
      match f h' with
      | Some (Returned _, h'') => Some (o, h'')
      | Some (Raised e, h'') => Some (Raised e, h'')
      | None => None
      end
  | None => None
  end.

(** * Properties *)

Local Arguments instance_of : simpl never.

(** ** [deque.remove] *)

Lemma remove_first_None (x : K) ks : remove_first x ks = None ↔ x ∉ ks.
Proof.
  induction ks as [|y l IH]; cbn.
  - split; [intros _; apply not_elem_of_nil | done].
  - destruct (decide (y = x)) as [->|Hne].
    + split; [done | intros Hx; destruct Hx; left].
    + rewrite fmap_None, IH, not_elem_of_cons. naive_solver.
Qed.

Lemma remove_first_Some (x : K) ks ks' :
  remove_first x ks = Some ks' ↔
  ∃ l1 l2, ks = l1 ++ (x :: l2) ∧ (x ∉ l1) ∧ ks' = l1 ++ l2.
Proof.
  revert ks'. induction ks as [|y l IH]; intros l'; cbn.
  - split; [done | intros (l1 & l2 & E & _); by destruct l1].
  - destruct (decide (y = x)) as [->|Hne].
    + split.
      * intros [= <-]. exists [], l. split_and!; [done | apply not_elem_of_nil | done].
      * intros (l1 & l2 & E & Hx & ->). destruct l1 as [|z l1]; simplify_eq/=; [done|].
        exfalso. apply Hx. left.
    + rewrite fmap_Some. split.
      * intros (l'' & (l1 & l2 & -> & Hx & ->)%IH & ->).
        exists (y :: l1), l2. split_and!; [done | | done].
        by rewrite not_elem_of_cons.
      * intros (l1 & l2 & E & Hx & ->). destruct l1 as [|z l1]; simplify_eq/=.
        exists (l1 ++ l2). split; [|done]. apply IH. exists l1, l2.
        rewrite not_elem_of_cons in Hx. naive_solver.
Qed.

(** A key of a duplicate-free queue splits it in two parts that do not hold
    it; [remove] leaves the two parts. *)
Lemma remove_first_NoDup (x : K) ks :
  NoDup ks → x ∈ ks →
  ∃ l1 l2, ks = l1 ++ (x :: l2) ∧ (x ∉ l1) ∧ (x ∉ l2) ∧
    remove_first x ks = Some (l1 ++ l2).
Proof.
  intros Hnd Hx.
  destruct (remove_first x ks) as [ks'|] eqn:E; [|by apply remove_first_None in E].
  apply remove_first_Some in E as (l1 & l2 & -> & Hx1 & ->).
  exists l1, l2. split_and!; [done..| |done].
  apply NoDup_app in Hnd as (_ & _ & Hnd). by apply NoDup_cons in Hnd as [? _].
Qed.

Lemma instance_capacity c r : instance_of c r !! "capacity" = Some c.
Proof. reflexivity. Qed.
Lemma instance_mapping c r : instance_of c r !! "_mapping" = Some (VDict (r_dict r)).
Proof. reflexivity. Qed.
Lemma instance_queue c r : instance_of c r !! "_queue" = Some (VDeque (r_deque r)).
Proof. reflexivity. Qed.
Lemma instance_popleft c r :
  instance_of c r !! "_popleft" = Some (VMeth (r_deque r) m_popleft).
Proof. reflexivity. Qed.
Lemma instance_remove c r :
  instance_of c r !! "_remove" = Some (VMeth (r_deque r) m_remove).
Proof. reflexivity. Qed.
Lemma instance_append c r :
  instance_of c r !! "_append" = Some (VMeth (r_deque r) m_append).
Proof. reflexivity. Qed.
Lemma instance_wlock c r : instance_of c r !! "_wlock" = Some (VLock (r_lock r)).
Proof. reflexivity. Qed.

Lemma run_bind {A B} (p : prog A) (f : A → prog B) h :
  run (p ≫= f) h = bind_run (run p h) (λ a h', run (f a) h').
Proof.
  revert h. induction p as [a|e|X o k IH]; intros h; try reflexivity.
  change (run (Op o k ≫= f) h) with
    (match exec o h with Some (x, h') => run (k x ≫= f) h' | None => None end).
  cbn [run]. destruct (exec o h) as [[x h']|]; [apply IH | reflexivity].
Qed.

Lemma run_try_except {A} (p : prog A) e hd h :
  run (try_except p e hd) h = except_run (run p h) e (run hd).
Proof.
  revert h. induction p as [a|e'|X o k IH]; intros h; cbn [try_except run except_run].
  - reflexivity.
  - destruct (decide (e' = e)); reflexivity.
  - destruct (exec o h) as [[x h']|]; [apply IH | reflexivity].
Qed.

Lemma run_try_finally {A} (p : prog A) fin h :
  run (try_finally p fin) h = finally_run (run p h) (run fin).
Proof.
  revert h. induction p as [a|e|X o k IH]; intros h; cbn [try_finally run finally_run].
  - rewrite run_bind. destruct (run fin h) as [[[[]|e] h']|]; reflexivity.
  - rewrite run_bind. destruct (run fin h) as [[[[]|e'] h']|]; reflexivity.
  - destruct (exec o h) as [[x h']|]; [apply IH | reflexivity].
Qed.

Lemma run_perform {X} (o : prim X) h :
  run (perform o) h = (λ xh, (Returned xh.1, xh.2)) <$> exec o h.
Proof. cbn. destruct (exec o h) as [[x h']|]; reflexivity. Qed.

(** ** Primitive steps on the heap of one cache *)

Section one_cache.
Variables (h0 : heap) (self : loc) (c : value) (r : refs).
Hypothesis Hobj : objs h0 !! self = Some (instance_of c r).

Local Ltac prim_run :=
  unfold cur; cbn;
  repeat first
    [ rewrite Hobj | rewrite lookup_insert_eq | rewrite insert_insert_eq
    | match goal with E : _ = _ |- _ => rewrite E end
    | progress unfold set_objs, set_dicts, set_deques, set_locks
    | progress cbn ];
  try reflexivity.

Lemma run_getattr b m ks a v :
  instance_of c r !! a = Some v →
  run (getattr self a) (cur r b m ks h0) = Some (Returned v, cur r b m ks h0).
Proof. intros E. prim_run. Qed.

Lemma run_mapping_of b m ks :
  run (mapping_of self) (cur r b m ks h0) = Some (Returned (r_dict r), cur r b m ks h0).
Proof.
  unfold mapping_of. rewrite run_bind, (run_getattr _ _ _ _ _ (instance_mapping c r)).
  reflexivity.
Qed.

Lemma run_queue_of b m ks :
  run (queue_of self) (cur r b m ks h0) = Some (Returned (r_deque r), cur r b m ks h0).
Proof.
  unfold queue_of. rewrite run_bind, (run_getattr _ _ _ _ _ (instance_queue c r)).
  reflexivity.
Qed.

Lemma run_wlock_of b m ks :
  run (wlock_of self) (cur r b m ks h0) = Some (Returned (r_lock r), cur r b m ks h0).
Proof.
  unfold wlock_of. rewrite run_bind, (run_getattr _ _ _ _ _ (instance_wlock c r)).
  reflexivity.
Qed.

Lemma run_wlock_acquire m ks :
  run (wlock_acquire self) (cur r false m ks h0) = Some (Returned tt, cur r true m ks h0).
Proof. unfold wlock_acquire. rewrite run_bind, run_wlock_of. prim_run. Qed.

Lemma run_wlock_acquire_held m ks :
  run (wlock_acquire self) (cur r true m ks h0) = None.
Proof. unfold wlock_acquire. rewrite run_bind, run_wlock_of. prim_run. Qed.

Lemma run_wlock_release m ks :
  run (wlock_release self) (cur r true m ks h0) = Some (Returned tt, cur r false m ks h0).
Proof. unfold wlock_release. rewrite run_bind, run_wlock_of. prim_run. Qed.

Lemma run_dict_getitem b m ks key :
  run (dict_getitem (r_dict r) key) (cur r b m ks h0) =
  Some (from_option Returned (Raised KeyError) (m !! key), cur r b m ks h0).
Proof. prim_run. destruct (m !! key); reflexivity. Qed.

Lemma run_dict_contains b m ks key :
  run (perform (DictContains (r_dict r) key)) (cur r b m ks h0) =
  Some (Returned (bool_decide (is_Some (m !! key))), cur r b m ks h0).
Proof. prim_run. Qed.

Lemma run_dict_len b m ks :
  run (perform (DictLen (r_dict r))) (cur r b m ks h0) =
  Some (Returned (size m), cur r b m ks h0).
Proof. prim_run. Qed.

Lemma run_dict_set b m ks key v :
  run (perform (DictSet (r_dict r) key v)) (cur r b m ks h0) =
  Some (Returned tt, cur r b (<[key:=v]> m) ks h0).
Proof. prim_run. Qed.

Lemma run_dict_delitem b m ks key :
  run (dict_delitem (r_dict r) key) (cur r b m ks h0) =
  match m !! key with
  | Some _ => Some (Returned tt, cur r b (delete key m) ks h0)
  | None => Some (Raised KeyError, cur r b m ks h0)
  end.
Proof. prim_run. destruct (m !! key); prim_run. Qed.

Lemma run_dict_clear b m ks :
  run (perform (DictClear (r_dict r))) (cur r b m ks h0) =
  Some (Returned tt, cur r b ∅ ks h0).
Proof. prim_run. Qed.

Lemma run_deque_last b m ks :
  run (perform (DequeLast (r_deque r))) (cur r b m ks h0) =
  Some (Returned (last ks), cur r b m ks h0).
Proof. prim_run. Qed.

Lemma run_deque_list b m ks :
  run (perform (DequeList (r_deque r))) (cur r b m ks h0) =
  Some (Returned ks, cur r b m ks h0).
Proof. prim_run. Qed.

Lemma run_deque_clear b m ks :
  run (perform (DequeClear (r_deque r))) (cur r b m ks h0) =
  Some (Returned tt, cur r b m [] h0).
Proof. prim_run. Qed.

Lemma run_call_remove b m ks key :
  run (call1 self "_remove" key) (cur r b m ks h0) =
  match remove_first key ks with
  | Some ks' => Some (Returned tt, cur r b m ks' h0)
  | None => Some (Raised ValueError, cur r b m ks h0)
  end.
Proof.
  unfold call1. rewrite run_bind, (run_getattr _ _ _ _ _ (instance_remove c r)).
  prim_run. destruct (remove_first key ks); prim_run.
Qed.

Lemma run_call_append b m ks key :
  run (call1 self "_append" key) (cur r b m ks h0) =
  Some (Returned tt, cur r b m (ks ++ [key]) h0).
Proof.
  unfold call1. rewrite run_bind, (run_getattr _ _ _ _ _ (instance_append c r)).
  prim_run.
Qed.

Lemma run_call_popleft b m ks :
  run (call0 self "_popleft") (cur r b m ks h0) =
  match ks with
  | k :: ks' => Some (Returned k, cur r b m ks' h0)
  | [] => Some (Raised IndexError, cur r b m ks h0)
  end.
Proof.
  unfold call0. rewrite run_bind, (run_getattr _ _ _ _ _ (instance_popleft c r)).
  prim_run. destruct ks; prim_run.
Qed.

Local Ltac go :=
  repeat first
    [ rewrite run_bind | rewrite run_try_finally | rewrite run_try_except
    | rewrite run_wlock_acquire | rewrite run_wlock_release
    | rewrite run_mapping_of | rewrite run_queue_of
    | rewrite run_dict_getitem | rewrite run_dict_contains | rewrite run_dict_len
    | rewrite run_dict_set | rewrite run_dict_delitem | rewrite run_dict_clear
    | rewrite run_deque_last | rewrite run_deque_list | rewrite run_deque_clear
    | rewrite run_call_remove | rewrite run_call_append | rewrite run_call_popleft
    | rewrite (run_getattr _ _ _ _ _ (instance_capacity c r))
    | rewrite decide_True by done
    | rewrite decide_False by done
    | progress cbn [run bind_run finally_run except_run from_option default
                    mbind prog_mbind prog_bind mret prog_mret fst snd] ].

Lemma run_getitem_cur m ks key :
  run (__getitem__ self key) (cur r false m ks h0) =
  Some ((getitem_effect m ks key).1,
        cur r false (getitem_effect m ks key).2.1 (getitem_effect m ks key).2.2 h0).
Proof.
  unfold __getitem__, getitem_effect. go.
  destruct (m !! key) as [v|]; go; [|done].
  destruct (last ks) as [back|]; go; [|done].
  destruct (decide (back ≠ key)) as [Hne|Heq]; go; [|done].
  destruct (remove_first key ks) as [ks'|]; go; done.
Qed.

Lemma run_setitem_cur m ks key v :
  run (__setitem__ self key v) (cur r false m ks h0) =
  Some ((setitem_effect c m ks key v).1,
        cur r false (setitem_effect c m ks key v).2.1 (setitem_effect c m ks key v).2.2 h0).
Proof.
  unfold __setitem__, setitem_effect. go.
  destruct (m !! key) as [v'|] eqn:Hk.
  - rewrite bool_decide_eq_true_2 by eauto. go.
    destruct (remove_first key ks) as [ks'|]; go; done.
  - rewrite bool_decide_eq_false_2 by (by intros [? ?]). go.
    destruct (decide (VInt (Z.of_nat (size m)) = c)) as [Hc|Hc]; go; [|done].
    destruct ks as [|k ks']; go; [done|].
    destruct (m !! k); go; done.
Qed.

Lemma run_delitem_cur m ks key :
  run (__delitem__ self key) (cur r false m ks h0) =
  Some ((delitem_effect m ks key).1,
        cur r false (delitem_effect m ks key).2.1 (delitem_effect m ks key).2.2 h0).
Proof.
  unfold __delitem__, delitem_effect. go.
  destruct (m !! key) as [v'|]; go; [|done].
  destruct (remove_first key ks) as [ks'|]; go; done.
Qed.

Lemma run_clear_cur m ks :
  run (clear self) (cur r false m ks h0) = Some (Returned tt, cur r false ∅ [] h0).
Proof. unfold clear. go. done. Qed.

Lemma run_items_loop b m ks (l : list K) :
  run (for_each (λ key, d ← mapping_of self; v ← dict_getitem d key; Ret (key, v)) l)
      (cur r b m ks h0) =
  Some (from_option Returned (Raised KeyError) (mapM (λ k, pair k <$> m !! k) l),
        cur r b m ks h0).
Proof.
  induction l as [|k l IH]; [done|].
  cbn [for_each mapM]. go.
  destruct (m !! k) as [v|];
    cbn [from_option bind_run fmap option_fmap option_map mbind option_bind]; [|done].
  rewrite run_bind, IH. by destruct (mapM _ l).
Qed.

Lemma run_items_cur b m ks :
  run (items self) (cur r b m ks h0) = Some (items_effect m ks, cur r b m ks h0).
Proof.
  unfold items, items_effect. go. rewrite run_items_loop.
  destruct (mapM _ ks); go; done.
Qed.

Lemma run_values_cur b m ks :
  run (values self) (cur r b m ks h0) =
  Some (match items_effect m ks with
        | Returned its => Returned (map snd its)
        | Raised e => Raised e
        end, cur r b m ks h0).
Proof. unfold values. go. rewrite run_items_cur. destruct (items_effect m ks); go; done. Qed.

Lemma run_iter_cur b m ks :
  run (__iter__ self) (cur r b m ks h0) = Some (Returned (reverse ks), cur r b m ks h0).
Proof. unfold __iter__. go. done. Qed.

Lemma run_reversed_cur b m ks :
  run (__reversed__ self) (cur r b m ks h0) = Some (Returned ks, cur r b m ks h0).
Proof. unfold __reversed__. go. done. Qed.

Lemma run_contains_cur b m ks key :
  run (__contains__ self key) (cur r b m ks h0) =
  Some (Returned (bool_decide (is_Some (m !! key))), cur r b m ks h0).
Proof. unfold __contains__. go. done. Qed.

Lemma run_len_cur b m ks :
  run (__len__ self) (cur r b m ks h0) = Some (Returned (size m), cur r b m ks h0).
Proof. unfold __len__. go. done. Qed.

Lemma run_getstate_cur b m ks :
  run (__getstate__ self) (cur r b m ks h0) =
  Some (Returned (<["capacity":=c]> (<["_mapping":=VDict (r_dict r)]>
                  (<["_queue":=VDeque (r_deque r)]> ∅))), cur r b m ks h0).
Proof.
  unfold __getstate__. go.
  rewrite (run_getattr _ _ _ _ _ (instance_mapping c r)). go.
  rewrite (run_getattr _ _ _ _ _ (instance_queue c r)). go. done.
Qed.

Lemma run_setdefault_cur m ks key default :
  run (setdefault self key default) (cur r false m ks h0) =
  Some ((setdefault_effect c m ks key default).1,
        cur r false (setdefault_effect c m ks key default).2.1
            (setdefault_effect c m ks key default).2.2 h0).
Proof.
  unfold setdefault, setdefault_effect. go. rewrite run_getitem_cur.
  destruct (getitem_effect m ks key) as [[v|e] [m' ks']]; cbn [except_run fst snd]; [done|].
  destruct (decide (e = KeyError)) as [->|Hne]; [|by destruct e].
  go. rewrite run_setitem_cur.
  destruct (setitem_effect c m' ks' key default) as [[[]|e] [m'' ks'']]; go; done.
Qed.

Lemma run_get_cur m ks key default :
  run (get self key default) (cur r false m ks h0) =
  Some (match (getitem_effect m ks key).1 with
        | Raised KeyError => Returned default
        | o => o
        end,
        cur r false (getitem_effect m ks key).2.1 (getitem_effect m ks key).2.2 h0).
Proof.
  unfold get. go. rewrite run_getitem_cur.
  destruct (getitem_effect m ks key) as [[v|e] [m' ks']]; cbn [except_run fst snd]; [done|].
  destruct (decide (e = KeyError)) as [->|Hne]; [done|by destruct e].
Qed.

End one_cache.

(** ** The methods on a cache whose lock is free *)

Lemma cur_put h self c r m ks m' ks' :
  cache_at h self c r m ks → cur r false m' ks' h = put r m' ks' h.
Proof.
  intros [_ _ _ Hl]. unfold cur, put, set_deques, set_dicts. cbn.
  by rewrite (insert_id _ _ _ Hl).
Qed.

Lemma put_same h self c r m ks : cache_at h self c r m ks → put r m ks h = h.
Proof.
  intros [_ Hd Hq _]. unfold put, set_deques, set_dicts. cbn.
  rewrite (insert_id _ _ _ Hd), (insert_id _ _ _ Hq). by destruct h.
Qed.

Lemma cur_same h self c r m ks : cache_at h self c r m ks → cur r false m ks h = h.
Proof. intros Hc. by rewrite (cur_put _ _ _ _ _ _ _ _ Hc), (put_same _ _ _ _ _ _ Hc). Qed.

Lemma cache_at_put h self c r m ks m' ks' :
  cache_at h self c r m ks → cache_at (put r m' ks' h) self c r m' ks'.
Proof.
  intros [Ho Hd Hq Hl]. split; cbn; [done| | |done]; apply lookup_insert_eq.
Qed.

Lemma run_getitem h self c r m ks key :
  cache_at h self c r m ks →
  run (__getitem__ self key) h =
  Some ((getitem_effect m ks key).1,
        put r (getitem_effect m ks key).2.1 (getitem_effect m ks key).2.2 h).
Proof.
  intros Hc. rewrite <- (cur_same _ _ _ _ _ _ Hc) at 1.
  rewrite (run_getitem_cur _ _ _ _ (at_obj _ _ _ _ _ _ Hc)). by erewrite cur_put.
Qed.

Lemma run_setitem h self c r m ks key v :
  cache_at h self c r m ks →
  run (__setitem__ self key v) h =
  Some ((setitem_effect c m ks key v).1,
        put r (setitem_effect c m ks key v).2.1 (setitem_effect c m ks key v).2.2 h).
Proof.
  intros Hc. rewrite <- (cur_same _ _ _ _ _ _ Hc) at 1.
  rewrite (run_setitem_cur _ _ _ _ (at_obj _ _ _ _ _ _ Hc)). by erewrite cur_put.
Qed.

Lemma run_delitem h self c r m ks key :
  cache_at h self c r m ks →
  run (__delitem__ self key) h =
  Some ((delitem_effect m ks key).1,
        put r (delitem_effect m ks key).2.1 (delitem_effect m ks key).2.2 h).
Proof.
  intros Hc. rewrite <- (cur_same _ _ _ _ _ _ Hc) at 1.
  rewrite (run_delitem_cur _ _ _ _ (at_obj _ _ _ _ _ _ Hc)). by erewrite cur_put.
Qed.

Lemma run_clear h self c r m ks :
  cache_at h self c r m ks →
  run (clear self) h = Some (Returned tt, put r ∅ [] h).
Proof.
  intros Hc. rewrite <- (cur_same _ _ _ _ _ _ Hc) at 1.
  rewrite (run_clear_cur _ _ _ _ (at_obj _ _ _ _ _ _ Hc)). by erewrite cur_put.
Qed.

(** ** What the invariants give *)

Lemma inv_present cap m ks key v :
  inv cap m ks → m !! key = Some v →
  ∃ l1 l2, ks = l1 ++ (key :: l2) ∧ (key ∉ l1) ∧ (key ∉ l2) ∧
    remove_first key ks = Some (l1 ++ l2).
Proof.
  intros (Hdom & Hnd & _) Hk. apply remove_first_NoDup; [done|].
  apply (elem_of_list_to_set (C:=gset K)). rewrite <- Hdom. apply elem_of_dom. eauto.
Qed.

Lemma inv_absent cap m ks key : inv cap m ks → m !! key = None → key ∉ ks.
Proof.
  intros (Hdom & _ & _) Hk Hin. apply (elem_of_list_to_set (C:=gset K)) in Hin.
  rewrite <- Hdom in Hin. apply elem_of_dom in Hin as [? ?]. congruence.
Qed.

Lemma last_middle (l1 l2 : list K) key :
  key ∉ l2 → last (l1 ++ key :: l2) = Some key → l2 = [].
Proof.
  intros Hk. destruct l2 as [|y l2 _] using rev_ind; [done|].
  rewrite app_comm_cons, app_assoc, last_snoc. intros [= ->].
  exfalso. apply Hk. apply elem_of_app. right. left.
Qed.

(** Reading a present key returns its value and moves the key to the back. *)
Lemma getitem_effect_present cap m ks key v l1 l2 :
  inv cap m ks → m !! key = Some v → ks = l1 ++ key :: l2 → key ∉ l1 →
  getitem_effect m ks key = (Returned v, (m, l1 ++ l2 ++ [key])).
Proof.
  intros Hinv Hk -> Hl1. unfold getitem_effect. rewrite Hk.
  destruct (inv_present _ _ _ _ _ Hinv Hk) as (l1' & l2' & E & Hk1 & Hk2 & Hrm).
  apply remove_first_Some in Hrm as (l1'' & l2'' & E' & Hk1' & E'').
  assert (last (l1 ++ key :: l2) = Some key ∨ ∃ back, last (l1 ++ key :: l2) = Some back ∧ back ≠ key)
    as [Hlast|(back & Hlast & Hne)].
  { destruct (last (l1 ++ key :: l2)) as [back|] eqn:El.
    - destruct (decide (back = key)) as [->|]; eauto.
    - apply last_None in El. by destruct l1. }
  - rewrite Hlast, decide_False by (by intros ?).
    assert (key ∉ l2) as Hl2.
    { destruct Hinv as (_ & Hnd & _). apply NoDup_app in Hnd as (_ & _ & Hnd).
      by apply NoDup_cons in Hnd as [? _]. }
    by rewrite (last_middle _ _ _ Hl2 Hlast).
  - rewrite Hlast, decide_True by done.
    assert (remove_first key (l1 ++ key :: l2) = Some (l1 ++ l2)) as ->.
    { apply remove_first_Some. eauto. }
    cbn. by rewrite <- app_assoc.
Qed.

Lemma getitem_effect_absent m ks key :
  m !! key = None → getitem_effect m ks key = (Raised KeyError, (m, ks)).
Proof. intros Hk. unfold getitem_effect. by rewrite Hk. Qed.

Lemma inv_length cap m ks : inv cap m ks → size m = length ks.
Proof.
  intros (Hdom & Hnd & _).
  rewrite <- size_dom, Hdom. by apply size_list_to_set.
Qed.

Lemma inv_empty cap : (0 ≤ cap)%Z → inv cap ∅ [].
Proof.
  intros Hc. split_and!; [by rewrite dom_empty_L | constructor |].
  rewrite map_size_empty. lia.
Qed.

(** Moving a key to the back keeps the invariants. *)
Lemma inv_moved cap m (l1 l2 : list K) key :
  inv cap m (l1 ++ key :: l2) → inv cap m (l1 ++ l2 ++ [key]).
Proof.
  intros (Hdom & Hnd & Hsz). split_and!; [|  |done].
  - rewrite Hdom, !list_to_set_app_L, list_to_set_cons. cbn. set_solver.
  - eapply NoDup_Permutation_proper; [|exact Hnd].
    rewrite (Permutation_app_comm l2 [key]). done.
Qed.

Lemma inv_overwrite cap m ks key v old :
  inv cap m ks → m !! key = Some old → inv cap (<[key:=v]> m) ks.
Proof.
  intros (Hdom & Hnd & Hsz) Hk. split_and!; [|done|].
  - rewrite dom_insert_L, <- Hdom. apply elem_of_dom_2 in Hk. set_solver.
  - by rewrite map_size_insert, Hk.
Qed.

Lemma inv_insert cap m ks key v :
  inv cap m ks → m !! key = None → (Z.of_nat (size m) < cap)%Z →
  inv cap (<[key:=v]> m) (ks ++ [key]).
Proof.
  intros Hinv Hk Hlt. pose proof (inv_absent _ _ _ _ Hinv Hk) as Hnin.
  destruct Hinv as (Hdom & Hnd & Hsz). split_and!.
  - rewrite dom_insert_L, Hdom, list_to_set_app_L. cbn. set_solver.
  - apply NoDup_app. split_and!; [done| |apply NoDup_singleton].
    intros x Hx ->%list_elem_of_singleton. done.
  - rewrite map_size_insert, Hk. lia.
Qed.

Lemma inv_delete_front cap m (lru : K) rest :
  inv cap m (lru :: rest) → inv (cap - 1) (delete lru m) rest.
Proof.
  intros (Hdom & Hnd & Hsz). apply NoDup_cons in Hnd as [Hnin Hnd].
  assert (is_Some (m !! lru)) as [x Hx].
  { apply elem_of_dom. rewrite Hdom. set_solver. }
  split_and!; [|done|].
  - rewrite dom_delete_L, Hdom, list_to_set_cons.
    apply (not_elem_of_list_to_set (C:=gset K)) in Hnin. set_solver.
  - pose proof (map_size_delete lru m) as Hd. rewrite Hx in Hd. cbn in Hd.
    assert (size m ≠ 0).
    { intros Hz. apply map_size_empty_inv in Hz. by rewrite Hz in Hx. }
    lia.
Qed.

Lemma inv_delete cap m (l1 l2 : list K) key :
  inv cap m (l1 ++ key :: l2) → key ∉ l1 → inv cap (delete key m) (l1 ++ l2).
Proof.
  intros (Hdom & Hnd & Hsz) Hl1.
  assert (key ∉ l2 ∧ NoDup (l1 ++ l2)) as [Hl2 Hnd'].
  { rewrite <- Permutation_middle in Hnd.
    apply NoDup_cons in Hnd as [Hn ?]. rewrite elem_of_app in Hn. naive_solver. }
  split_and!; [|done|].
  - rewrite dom_delete_L, Hdom, !list_to_set_app_L, list_to_set_cons.
    apply (not_elem_of_list_to_set (C:=gset K)) in Hl1, Hl2. set_solver.
  - pose proof (map_size_delete key m) as Hd. destruct (m !! key); cbn in Hd; lia.
Qed.

(** The three cases of [__setitem__] on a cache that satisfies the
    invariants and has a positive capacity. *)
Lemma setitem_effect_present cap m ks key v old (l1 l2 : list K) :
  inv cap m ks → m !! key = Some old → ks = l1 ++ key :: l2 → key ∉ l1 →
  setitem_effect (VInt cap) m ks key v = (Returned tt, (<[key:=v]> m, l1 ++ l2 ++ [key])).
Proof.
  intros Hinv Hk -> Hl1. unfold setitem_effect. rewrite Hk.
  assert (remove_first key (l1 ++ key :: l2) = Some (l1 ++ l2)) as ->.
  { apply remove_first_Some. eauto. }
  by rewrite <- app_assoc.
Qed.

Lemma setitem_effect_full cap m ks key v :
  inv cap m ks → (0 < cap)%Z → m !! key = None → Z.of_nat (size m) = cap →
  ∃ lru rest, ks = lru :: rest ∧ is_Some (m !! lru) ∧
    setitem_effect (VInt cap) m ks key v =
    (Returned tt, (<[key:=v]> (delete lru m), rest ++ [key])).
Proof.
  intros Hinv Hpos Hk Hsz. pose proof (inv_length _ _ _ Hinv) as Hlen.
  destruct ks as [|lru rest]; [cbn in Hlen; lia|].
  assert (is_Some (m !! lru)) as [x Hx].
  { destruct Hinv as (Hdom & _). apply elem_of_dom. rewrite Hdom. set_solver. }
  exists lru, rest. split_and!; [done|eauto|].
  unfold setitem_effect. rewrite Hk, decide_True by (by rewrite Hsz). by rewrite Hx.
Qed.

Lemma setitem_effect_room c m ks key v :
  m !! key = None → VInt (Z.of_nat (size m)) ≠ c →
  setitem_effect c m ks key v = (Returned tt, (<[key:=v]> m, ks ++ [key])).
Proof. intros Hk Hne. unfold setitem_effect. by rewrite Hk, decide_False. Qed.

Lemma delitem_effect_present m ks key v (l1 l2 : list K) :
  m !! key = Some v → ks = l1 ++ key :: l2 → key ∉ l1 →
  delitem_effect m ks key = (Returned tt, (delete key m, l1 ++ l2)).
Proof.
  intros Hk -> Hl1. unfold delitem_effect. rewrite Hk.
  assert (remove_first key (l1 ++ key :: l2) = Some (l1 ++ l2)) as ->; [|done].
  apply remove_first_Some. eauto.
Qed.

(** The effects keep the invariants. *)
Lemma inv_getitem cap m ks key :
  inv cap m ks →
  inv cap (getitem_effect m ks key).2.1 (getitem_effect m ks key).2.2 ∧
  (getitem_effect m ks key).1 = from_option Returned (Raised KeyError) (m !! key).
Proof.
  intros Hinv. destruct (m !! key) as [v|] eqn:Hk.
  - destruct (inv_present _ _ _ _ _ Hinv Hk) as (l1 & l2 & E & Hk1 & Hk2 & Hrm).
    rewrite (getitem_effect_present _ _ _ _ _ _ _ Hinv Hk E Hk1). cbn.
    split; [|done]. subst ks. by apply inv_moved.
  - by rewrite getitem_effect_absent.
Qed.

Lemma inv_setitem cap m ks key v :
  inv cap m ks → (0 < cap)%Z →
  inv cap (setitem_effect (VInt cap) m ks key v).2.1 (setitem_effect (VInt cap) m ks key v).2.2 ∧
  (setitem_effect (VInt cap) m ks key v).1 = Returned tt.
Proof.
  intros Hinv Hpos. destruct (m !! key) as [old|] eqn:Hk.
  - destruct (inv_present _ _ _ _ _ Hinv Hk) as (l1 & l2 & E & Hk1 & Hk2 & Hrm).
    rewrite (setitem_effect_present _ _ _ _ _ _ _ _ Hinv Hk E Hk1). cbn.
    split; [|done]. subst ks. apply inv_moved. by eapply inv_overwrite.
  - destruct (decide (Z.of_nat (size m) = cap)) as [Hsz|Hsz].
    + destruct (setitem_effect_full _ _ _ _ v Hinv Hpos Hk Hsz)
        as (lru & rest & -> & _ & ->). cbn. split; [|done].
      pose proof (inv_delete_front _ _ _ _ Hinv) as Hinv'.
      replace cap with (cap - 1 + 1)%Z at 1 by lia.
      pose proof (inv_absent _ _ _ _ Hinv Hk) as Hnin.
      destruct Hinv' as (Hdom & Hnd & Hsz').
      assert (delete lru m !! key = None) as Hk'.
      { rewrite lookup_delete_ne; [done|]. intros ->. apply Hnin. left. }
      split_and!.
      * rewrite dom_insert_L, Hdom, list_to_set_app_L. cbn. set_solver.
      * apply NoDup_app. split_and!; [done| |apply NoDup_singleton].
        intros x Hx ->%list_elem_of_singleton. apply Hnin. by right.
      * rewrite map_size_insert, Hk'. lia.
    + rewrite setitem_effect_room by (done || congruence). cbn. split; [|done].
      apply inv_insert; [done..|]. destruct Hinv as (_ & _ & ?). lia.
Qed.

(** With capacity 0 the cache is empty and [__setitem__] fails on the empty
    queue; the invariants are kept for every capacity from 0 on. *)
Lemma inv_zero m ks : inv 0%Z m ks → m = ∅ ∧ ks = [].
Proof.
  intros Hinv. pose proof (inv_length _ _ _ Hinv) as Hlen.
  destruct Hinv as (_ & _ & Hsz).
  assert (size m = 0) as Hz by lia. split; [by apply map_size_empty_inv|].
  rewrite Hz in Hlen. by destruct ks.
Qed.

Lemma setitem_effect_zero key v :
  setitem_effect (VInt 0) ∅ [] key v = (Raised IndexError, (∅, [])).
Proof.
  unfold setitem_effect. rewrite lookup_empty, map_size_empty. by rewrite decide_True.
Qed.

Lemma inv_setitem_any cap m ks key v :
  inv cap m ks → (0 ≤ cap)%Z →
  inv cap (setitem_effect (VInt cap) m ks key v).2.1 (setitem_effect (VInt cap) m ks key v).2.2.
Proof.
  intros Hinv Hpos. destruct (decide (cap = 0%Z)) as [->|Hne].
  - destruct (inv_zero _ _ Hinv) as [-> ->]. by rewrite setitem_effect_zero.
  - apply inv_setitem; [done|lia].
Qed.

Lemma inv_delitem cap m ks key :
  inv cap m ks →
  inv cap (delitem_effect m ks key).2.1 (delitem_effect m ks key).2.2 ∧
  (delitem_effect m ks key).1 = if m !! key is Some _ then Returned tt else Raised KeyError.
Proof.
  intros Hinv. destruct (m !! key) as [v|] eqn:Hk.
  - destruct (inv_present _ _ _ _ _ Hinv Hk) as (l1 & l2 & E & Hk1 & Hk2 & Hrm).
    rewrite (delitem_effect_present _ _ _ _ _ _ Hk E Hk1). cbn.
    split; [|done]. subst ks. by apply inv_delete.
  - unfold delitem_effect. by rewrite Hk.
Qed.

Lemma setdefault_effect_present cap m ks key v default (l1 l2 : list K) :
  inv cap m ks → m !! key = Some v → ks = l1 ++ key :: l2 → key ∉ l1 →
  setdefault_effect (VInt cap) m ks key default = (Returned v, (m, l1 ++ l2 ++ [key])).
Proof.
  intros Hinv Hk E Hl1. unfold setdefault_effect.
  by rewrite (getitem_effect_present _ _ _ _ _ _ _ Hinv Hk E Hl1).
Qed.

Lemma setdefault_effect_absent c m ks key default :
  m !! key = None →
  setdefault_effect c m ks key default =
  (match (setitem_effect c m ks key default).1 with
   | Returned _ => Returned default
   | Raised e => Raised e
   end, (setitem_effect c m ks key default).2).
Proof.
  intros Hk. unfold setdefault_effect. rewrite (getitem_effect_absent _ _ _ Hk).
  by destruct (setitem_effect c m ks key default) as [[[]|e] s].
Qed.

Lemma inv_setdefault cap m ks key default :
  inv cap m ks → (0 ≤ cap)%Z →
  inv cap (setdefault_effect (VInt cap) m ks key default).2.1
          (setdefault_effect (VInt cap) m ks key default).2.2.
Proof.
  intros Hinv Hpos. destruct (m !! key) as [v|] eqn:Hk.
  - destruct (inv_present _ _ _ _ _ Hinv Hk) as (l1 & l2 & E & Hk1 & Hk2 & Hrm).
    rewrite (setdefault_effect_present _ _ _ _ _ _ _ _ Hinv Hk E Hk1). cbn.
    subst ks. by apply inv_moved.
  - rewrite (setdefault_effect_absent _ _ _ _ _ Hk). cbn.
    by apply inv_setitem_any.
Qed.

(** Every key of the queue has a value in the store, so [items] finds all
    of them. *)
Lemma items_effect_inv cap m ks :
  inv cap m ks →
  ∃ its, its.*1 = ks ∧ Forall (λ kv, m !! kv.1 = Some kv.2) its ∧
    items_effect m ks = Returned (reverse its).
Proof.
  intros (Hdom & _ & _). unfold items_effect.
  assert (∀ k, k ∈ ks → is_Some (m !! k)) as Hall.
  { intros k Hk. apply elem_of_dom. rewrite Hdom. by apply elem_of_list_to_set. }
  clear Hdom. induction ks as [|k l IH].
  - exists []. by split_and!.
  - destruct IH as (its & E1 & E2 & E3); [intros k' Hk'; apply Hall; by right|].
    destruct (Hall k) as [v Hv]; [left|].
    exists ((k, v) :: its). split_and!; [by rewrite fmap_cons, E1 | by constructor |].
    cbn [mapM]. rewrite Hv. cbn.
    destruct (mapM _ l) as [its'|]; cbn in *; [|done]. by simplify_eq.
Qed.

(** A program run on a cache whose lock is free. *)
Lemma on_cache {A} (p : prog A) h self c r m ks o m' ks' :
  cache_at h self c r m ks →
  run p (cur r false m ks h) = Some (o, cur r false m' ks' h) →
  run p h = Some (o, put r m' ks' h).
Proof.
  intros Hc. rewrite (cur_same _ _ _ _ _ _ Hc). intros ->. by erewrite cur_put.
Qed.

Lemma on_cache_read {A} (p : prog A) h self c r m ks o :
  cache_at h self c r m ks →
  run p (cur r false m ks h) = Some (o, cur r false m ks h) →
  run p h = Some (o, h).
Proof. intros Hc. by rewrite (cur_same _ _ _ _ _ _ Hc). Qed.

(** ** Construction *)

Lemma instance_built (c : value) (d q l : loc) :
  <["_append":=VMeth q m_append]> (
  <["_wlock":=VLock l]> (
  <["_remove":=VMeth q m_remove]> (
  <["_pop":=VMeth q m_pop]> (
  <["_popleft":=VMeth q m_popleft]> (
  <["_queue":=VDeque q]> (
  <["_mapping":=VDict d]> (
  <["capacity":=c]> (∅ : gmap string value)))))))) = instance_of c (mkRefs d q l).
Proof. reflexivity. Qed.

Local Ltac heap_run :=
  repeat first
    [ rewrite lookup_insert_eq | rewrite insert_insert_eq
    | rewrite lookup_insert_ne by done
    | match goal with E : _ !! _ = _ |- _ => rewrite E end
    | progress unfold set_objs, set_dicts, set_deques, set_locks
    | progress cbn ].

Lemma run_LRUCache c h :
  run (LRUCache c) h = Some (Returned (fresh_obj h), alloc c ∅ [] h).
Proof.
  unfold LRUCache, __init__, _postinit, queue_of, getattr, perform, alloc.
  heap_run. by rewrite instance_built.
Qed.

(** ** Several caches on one heap *)

Lemma instance_of_inj c r c' r' : instance_of c r = instance_of c' r' → c = c' ∧ r = r'.
Proof.
  intros E.
  pose proof (f_equal (λ i, i !! "capacity") E) as E1.
  pose proof (f_equal (λ i, i !! "_mapping") E) as E2.
  pose proof (f_equal (λ i, i !! "_queue") E) as E3.
  pose proof (f_equal (λ i, i !! "_wlock") E) as E4.
  cbn in E1, E2, E3, E4.
  rewrite !instance_capacity in E1. rewrite !instance_mapping in E2.
  rewrite !instance_queue in E3. rewrite !instance_wlock in E4.
  destruct r, r'. by simplify_eq/=.
Qed.

Lemma same_instance h x c r c' r' :
  objs h !! x = Some (instance_of c r) → objs h !! x = Some (instance_of c' r') →
  c = c' ∧ r = r'.
Proof. intros E1 E2. rewrite E1 in E2. apply (inj Some) in E2. by apply instance_of_inj. Qed.

Lemma view_cache_at h self c r m ks :
  cache_at h self c r m ks → view h self = Some (c, m, ks).
Proof.
  intros [Ho Hd Hq _]. unfold view. rewrite Ho. cbn.
  rewrite instance_capacity, instance_mapping, instance_queue. cbn.
  rewrite Hd. cbn. by rewrite Hq.
Qed.

Lemma fresh_obj_None h : objs h !! fresh_obj h = None.
Proof. apply (not_elem_of_dom (D:=gset loc)). unfold fresh_obj, fresh_refs. apply is_fresh. Qed.
Lemma fresh_dict_None h : dicts h !! r_dict (fresh_refs h) = None.
Proof. apply (not_elem_of_dom (D:=gset loc)). unfold fresh_obj, fresh_refs. apply is_fresh. Qed.
Lemma fresh_deque_None h : deques h !! r_deque (fresh_refs h) = None.
Proof. apply (not_elem_of_dom (D:=gset loc)). unfold fresh_obj, fresh_refs. apply is_fresh. Qed.
Lemma fresh_lock_None h : locks h !! r_lock (fresh_refs h) = None.
Proof. apply (not_elem_of_dom (D:=gset loc)). unfold fresh_obj, fresh_refs. apply is_fresh. Qed.

(** A write to one cache leaves every other cache as it was. *)
Lemma cache_at_put_other h r m' ks' x cx rx mx ksx :
  cache_at h x cx rx mx ksx →
  r_dict rx ≠ r_dict r → r_deque rx ≠ r_deque r →
  cache_at (put r m' ks' h) x cx rx mx ksx.
Proof.
  intros [Ho Hd Hq Hl] Hnd Hnq. split; cbn; [done| | |done].
  - by rewrite lookup_insert_ne.
  - by rewrite lookup_insert_ne.
Qed.

Lemma heap_inv_put h self cap r m ks m' ks' :
  heap_inv h → cache_at h self (VInt cap) r m ks → inv cap m' ks' →
  heap_inv (put r m' ks' h).
Proof.
  intros [Hcs Hap] Hc Hinv'. split; [|exact Hap].
  intros x i Hx. cbn in Hx.
  destruct (Hcs x i Hx) as (capx & rx & mx & ksx & Hcx & Hinvx).
  destruct (decide (x = self)) as [->|Hne].
  - pose proof (at_obj _ _ _ _ _ _ Hc) as Ho. pose proof (at_obj _ _ _ _ _ _ Hcx) as Hox.
    destruct (same_instance _ _ _ _ _ _ Ho Hox) as [[= <-] <-].
    exists cap, r, m', ks'. split; [by eapply cache_at_put|done].
  - exists capx, rx, mx, ksx. split; [|done].
    destruct (Hap x self _ _ _ _ Hne (at_obj _ _ _ _ _ _ Hcx) (at_obj _ _ _ _ _ _ Hc))
      as (? & ? & ?).
    by apply cache_at_put_other.
Qed.

Lemma view_put_other h self cap r m ks m' ks' x :
  heap_inv h → cache_at h self (VInt cap) r m ks → x ≠ self →
  view (put r m' ks' h) x = view h x.
Proof.
  intros [Hcs Hap] Hc Hne.
  destruct (objs h !! x) as [i|] eqn:Hx; [|unfold view; cbn; by rewrite Hx].
  destruct (Hcs x i Hx) as (capx & rx & mx & ksx & Hcx & Hinvx).
  destruct (Hap x self _ _ _ _ Hne (at_obj _ _ _ _ _ _ Hcx) (at_obj _ _ _ _ _ _ Hc))
    as (? & ? & ?).
  rewrite (view_cache_at _ _ _ _ _ _ Hcx).
  apply (view_cache_at _ _ _ rx). by apply cache_at_put_other.
Qed.

(** A new cache leaves every other cache as it was. *)
Lemma cache_at_alloc_other h c m ks x cx rx mx ksx :
  cache_at h x cx rx mx ksx → cache_at (alloc c m ks h) x cx rx mx ksx.
Proof.
  intros [Ho Hd Hq Hl]. split; cbn.
  - rewrite lookup_insert_ne; [done|]. intros E. by rewrite <- E, fresh_obj_None in Ho.
  - rewrite lookup_insert_ne; [done|]. intros E.
    pose proof (fresh_dict_None h) as Hf. cbn in Hf. by rewrite E, Hd in Hf.
  - rewrite lookup_insert_ne; [done|]. intros E.
    pose proof (fresh_deque_None h) as Hf. cbn in Hf. by rewrite E, Hq in Hf.
  - rewrite lookup_insert_ne; [done|]. intros E.
    pose proof (fresh_lock_None h) as Hf. cbn in Hf. by rewrite E, Hl in Hf.
Qed.

Lemma cache_at_alloc h c m ks :
  cache_at (alloc c m ks h) (fresh_obj h) c (fresh_refs h) m ks.
Proof. split; cbn; apply lookup_insert_eq. Qed.

Lemma heap_inv_alloc h cap m ks :
  heap_inv h → inv cap m ks → heap_inv (alloc (VInt cap) m ks h).
Proof.
  intros [Hcs Hap] Hinv. split.
  - intros x i Hx. cbn in Hx. destruct (decide (x = fresh_obj h)) as [->|Hne].
    + exists cap, (fresh_refs h), m, ks. split; [apply cache_at_alloc|done].
    + rewrite lookup_insert_ne in Hx by done.
      destruct (Hcs x i Hx) as (capx & rx & mx & ksx & Hcx & Hinvx).
      exists capx, rx, mx, ksx. split; [by apply cache_at_alloc_other|done].
  - assert (∀ x cx rx, x ≠ fresh_obj h → objs h !! x = Some (instance_of cx rx) →
              r_dict rx ≠ r_dict (fresh_refs h) ∧ r_deque rx ≠ r_deque (fresh_refs h) ∧
              r_lock rx ≠ r_lock (fresh_refs h)) as Hnew.
    { intros x cx rx Hne Hx.
      destruct (Hcs x _ Hx) as (capx & rx' & mx & ksx & [Ho Hd Hq Hl] & _).
      destruct (same_instance _ _ _ _ _ _ Hx Ho) as [_ <-].
      split_and!; intros E.
      - pose proof (fresh_dict_None h) as Hf. by rewrite <- E, Hd in Hf.
      - pose proof (fresh_deque_None h) as Hf. by rewrite <- E, Hq in Hf.
      - pose proof (fresh_lock_None h) as Hf. by rewrite <- E, Hl in Hf. }
    intros s1 s2 c1 c2 r1 r2 Hne H1 H2. cbn in H1, H2.
    destruct (decide (s1 = fresh_obj h)) as [->|Hn1];
      destruct (decide (s2 = fresh_obj h)) as [->|Hn2]; [done| | |].
    + rewrite lookup_insert_eq in H1. rewrite lookup_insert_ne in H2 by done.
      apply (inj Some), instance_of_inj in H1 as [_ <-].
      destruct (Hnew _ _ _ Hn2 H2) as (? & ? & ?). by split_and!.
    + rewrite lookup_insert_eq in H2. rewrite lookup_insert_ne in H1 by done.
      apply (inj Some), instance_of_inj in H2 as [_ <-].
      by apply (Hnew _ _ _ Hn1 H1).
    + rewrite lookup_insert_ne in H1, H2 by done. exact (Hap _ _ _ _ _ _ Hne H1 H2).
Qed.

Lemma view_alloc_other h c m ks x :
  heap_inv h → is_Some (objs h !! x) → view (alloc c m ks h) x = view h x.
Proof.
  intros [Hcs _] [i Hx].
  destruct (Hcs x i Hx) as (capx & rx & mx & ksx & Hcx & _).
  rewrite (view_cache_at _ _ _ _ _ _ Hcx).
  apply (view_cache_at _ _ _ rx). by apply cache_at_alloc_other.
Qed.

Lemma heap_inv_empty : heap_inv empty_heap.
Proof. split; intros *; cbn; by rewrite ?lookup_empty. Qed.

Lemma run_copy h self c r m ks :
  cache_at h self c r m ks →
  run (copy self) h = Some (Returned (fresh_obj h), alloc c m ks h).
Proof.
  intros [Ho Hd Hq Hl].
  assert (fresh_obj h ≠ self) as Hn1.
  { intros E. pose proof (fresh_obj_None h) as Hf. by rewrite E, Ho in Hf. }
  assert (r_dict (fresh_refs h) ≠ r_dict r) as Hn2.
  { intros E. pose proof (fresh_dict_None h) as Hf. by rewrite E, Hd in Hf. }
  assert (r_deque (fresh_refs h) ≠ r_deque r) as Hn3.
  { intros E. pose proof (fresh_deque_None h) as Hf. by rewrite E, Hq in Hf. }
  unfold copy. rewrite run_bind.
  assert (run (getattr self "capacity") h = Some (Returned c, h)) as ->.
  { unfold getattr, perform. cbn. rewrite Ho. cbn. by rewrite instance_capacity. }
  cbn [bind_run]. rewrite run_bind, run_LRUCache. cbn [bind_run].
  unfold mapping_of, queue_of, getattr, perform, alloc.
  repeat first
    [ rewrite lookup_insert_eq | rewrite instance_mapping | rewrite instance_queue
    | rewrite lookup_insert_ne by done | rewrite Ho | rewrite Hd | rewrite Hq
    | progress cbn ].
  unfold set_deques, set_dicts. cbn.
  by rewrite !insert_insert_eq, (right_id_L ∅ (∪)).
Qed.

(** ** One call keeps the heap in order *)

Lemma step_ok_put h self cap r m ks m' ks' :
  heap_inv h → cache_at h self (VInt cap) r m ks → inv cap m' ks' →
  step_ok h self (put r m' ks' h).
Proof.
  intros Hh Hc Hinv. split_and!.
  - by eapply heap_inv_put.
  - intros x Hne _. by eapply view_put_other.
  - done.
Qed.

Lemma step_ok_same h self : heap_inv h → step_ok h self h.
Proof. by intros Hh; split_and!. Qed.

Lemma step_ok_alloc h self cap m ks :
  heap_inv h → inv cap m ks → step_ok h self (alloc (VInt cap) m ks h).
Proof.
  intros Hh Hinv. split_and!.
  - by apply heap_inv_alloc.
  - intros x _ Hx. by apply view_alloc_other.
  - intros x i Hx. cbn. rewrite lookup_insert_ne; [done|].
    intros E. by rewrite <- E, fresh_obj_None in Hx.
Qed.

Lemma run_drop {A} (p : prog A) h o h' :
  run p h = Some (o, h') → ∃ o', run (p;; Ret tt) h = Some (o', h').
Proof.
  intros Hr. change (p;; Ret tt) with (p ≫= λ _, Ret tt).
  rewrite run_bind, Hr. destruct o; cbn; eauto.
Qed.

(** Every call on a cache of a heap that satisfies the invariants runs to
    its end, and leaves a heap that satisfies them. *)
Lemma call_step h cl :
  heap_inv h → is_Some (objs h !! target cl) →
  ∃ o h', run (do_call cl) h = Some (o, h') ∧ step_ok h (target cl) h'.
Proof.
  intros Hh [i Hi].
  destruct (hi_caches _ Hh _ _ Hi) as (cap & r & m & ks & Hc & Hinv).
  pose proof (at_obj _ _ _ _ _ _ Hc) as Ho.
  assert (0 ≤ cap)%Z as Hcap by (destruct Hinv as (_ & _ & ?); lia).
  destruct cl as [self key|self key d|self key d|self key v|self key|self|self
                 |self|self|self|self|self|self key|self]; cbn [target do_call] in *.
  - destruct (run_drop _ _ _ _ (run_getitem _ _ _ _ _ _ key Hc)) as [o' Hr].
    eexists _, _. split; [exact Hr|].
    eapply step_ok_put; [done..|]. by apply inv_getitem.
  - edestruct (run_drop (get self key d)) as [o' Hr].
    { eapply on_cache; [done|]. apply (run_get_cur _ _ _ _ Ho). }
    eexists _, _. split; [exact Hr|].
    eapply step_ok_put; [done..|]. by apply inv_getitem.
  - edestruct (run_drop (setdefault self key d)) as [o' Hr].
    { eapply on_cache; [done|]. apply (run_setdefault_cur _ _ _ _ Ho). }
    eexists _, _. split; [exact Hr|].
    eapply step_ok_put; [done..|]. by apply inv_setdefault.
  - eexists _, _. split; [apply (run_setitem _ _ _ _ _ _ _ _ Hc)|].
    eapply step_ok_put; [done..|]. by apply inv_setitem_any.
  - eexists _, _. split; [apply (run_delitem _ _ _ _ _ _ _ Hc)|].
    eapply step_ok_put; [done..|]. by apply inv_delitem.
  - eexists _, _. split; [apply (run_clear _ _ _ _ _ _ Hc)|].
    eapply step_ok_put; [done..|]. by apply inv_empty.
  - destruct (run_drop _ _ _ _ (run_copy _ _ _ _ _ _ Hc)) as [o' Hr].
    eexists _, _. split; [exact Hr|]. by apply step_ok_alloc.
  - edestruct (run_drop (items self)) as [o' Hr].
    { eapply on_cache_read; [done|]. apply (run_items_cur _ _ _ _ Ho). }
    eexists _, _. split; [exact Hr|]. by apply step_ok_same.
  - edestruct (run_drop (values self)) as [o' Hr].
    { eapply on_cache_read; [done|]. apply (run_values_cur _ _ _ _ Ho). }
    eexists _, _. split; [exact Hr|]. by apply step_ok_same.
  - edestruct (run_drop (keys self)) as [o' Hr].
    { eapply on_cache_read; [done|]. apply (run_iter_cur _ _ _ _ Ho). }
    eexists _, _. split; [exact Hr|]. by apply step_ok_same.
  - edestruct (run_drop (__iter__ self)) as [o' Hr].
    { eapply on_cache_read; [done|]. apply (run_iter_cur _ _ _ _ Ho). }
    eexists _, _. split; [exact Hr|]. by apply step_ok_same.
  - edestruct (run_drop (__reversed__ self)) as [o' Hr].
    { eapply on_cache_read; [done|]. apply (run_reversed_cur _ _ _ _ Ho). }
    eexists _, _. split; [exact Hr|]. by apply step_ok_same.
  - edestruct (run_drop (__contains__ self key)) as [o' Hr].
    { eapply on_cache_read; [done|]. apply (run_contains_cur _ _ _ _ Ho). }
    eexists _, _. split; [exact Hr|]. by apply step_ok_same.
  - edestruct (run_drop (__len__ self)) as [o' Hr].
    { eapply on_cache_read; [done|]. apply (run_len_cur _ _ _ _ Ho). }
    eexists _, _. split; [exact Hr|]. by apply step_ok_same.
Qed.

(** A call that runs to its end was made on an instance. *)
Lemma run_call_target h cl o h' :
  run (do_call cl) h = Some (o, h') → is_Some (objs h !! target cl).
Proof.
  destruct (objs h !! target cl) as [i|] eqn:E; [eauto|]. intros Hr. exfalso.
  destruct cl; cbn [target do_call] in *;
    unfold __getitem__, get, setdefault, __setitem__, __delitem__, clear, copy, items,
      values, keys, __iter__, __reversed__, __contains__, __len__, wlock_acquire,
      wlock_of, mapping_of, queue_of, getattr, perform in Hr;
    cbn in Hr; rewrite E in Hr; done.
Qed.

Lemma calls_inv cls h h' :
  heap_inv h → run_calls cls h = Some h' →
  heap_inv h' ∧
  (∀ x i, objs h !! x = Some i → objs h' !! x = Some i) ∧
  (∀ x, is_Some (objs h !! x) → Forall (λ cl, target cl ≠ x) cls → view h' x = view h x).
Proof.
  revert h. induction cls as [|cl cls IH]; intros h Hh Hr; cbn in Hr.
  - by simplify_eq.
  - destruct (run (do_call cl) h) as [[o h1]|] eqn:E; [|done].
    destruct (call_step h cl Hh (run_call_target _ _ _ _ E)) as (o' & h1' & E' & H1 & H2 & H3).
    rewrite E in E'. simplify_eq.
    destruct (IH _ H1 Hr) as (I1 & I2 & I3). split_and!; [done|eauto|].
    intros x [i Hx] Hall. apply Forall_cons in Hall as [Hne Hall].
    rewrite I3; [|eauto|done]. apply H2; eauto.
Qed.

(** ** Pickling *)

Lemma instance_rebuilt (c : value) (d q l : loc) :
  <["_append":=VMeth q m_append]> (
  <["_wlock":=VLock l]> (
  <["_remove":=VMeth q m_remove]> (
  <["_pop":=VMeth q m_pop]> (
  <["_popleft":=VMeth q m_popleft]> (state_of c d q))))) = instance_of c (mkRefs d q l).
Proof. reflexivity. Qed.

Lemma run_reconstruct h c dl ql :
  run (reconstruct (state_of c dl ql)) h = Some (Returned (fresh_obj h), rebuilt c dl ql h).
Proof.
  unfold reconstruct, __setstate__, _postinit, queue_of, getattr, perform, rebuilt.
  cbn. rewrite !lookup_insert_eq. cbn. rewrite (right_id_L ∅ (∪)).
  repeat first
    [ rewrite lookup_insert_eq | rewrite insert_insert_eq
    | rewrite lookup_insert_ne by done
    | progress unfold set_objs, set_dicts, set_deques, set_locks
    | progress cbn [run exec mbind option_bind prog_mbind prog_bind as_deque
                    objs dicts deques locks fst snd] ].
  assert (state_of c dl ql !! "_queue" = Some (VDeque ql)) as Eq by reflexivity.
  repeat first
    [ rewrite Eq | rewrite lookup_insert_eq | rewrite insert_insert_eq
    | rewrite lookup_insert_ne by done
    | progress unfold set_objs, set_dicts, set_deques, set_locks
    | progress cbn [run exec mbind option_bind prog_mbind prog_bind as_deque
                    objs dicts deques locks fst snd] ].
  by rewrite instance_rebuilt.
Qed.

Lemma cache_at_rebuilt h c dl ql m ks :
  dicts h !! dl = Some m → deques h !! ql = Some ks →
  cache_at (rebuilt c dl ql h) (fresh_obj h) c (mkRefs dl ql (r_lock (fresh_refs h))) m ks.
Proof. intros Hd Hq. split; cbn; [apply lookup_insert_eq|done..|apply lookup_insert_eq]. Qed.

Lemma cache_at_rebuilt_other h c dl ql x cx rx mx ksx :
  cache_at h x cx rx mx ksx → cache_at (rebuilt c dl ql h) x cx rx mx ksx.
Proof.
  intros [Ho Hd Hq Hl]. split; cbn; [|done..|].
  - rewrite lookup_insert_ne; [done|]. intros E. by rewrite <- E, fresh_obj_None in Ho.
  - rewrite lookup_insert_ne; [done|]. intros E.
    pose proof (fresh_lock_None h) as Hf. cbn in Hf. by rewrite E, Hl in Hf.
Qed.

(** What the reading methods answer is fixed by the store and the queue. *)
Lemma observe_cache_at h x c r m ks probe :
  cache_at h x c r m ks →
  observe h x probe =
  (Some (items_effect m ks),
   Some (match items_effect m ks with
         | Returned its => Returned (map snd its)
         | Raised e => Raised e
         end),
   Some (Returned (reverse ks)), Some (Returned (reverse ks)), Some (Returned ks),
   Some (Returned (size m)),
   (λ key, Some (Returned (bool_decide (is_Some (m !! key))))) <$> probe).
Proof.
  intros Hc. pose proof (at_obj _ _ _ _ _ _ Hc) as Ho. unfold observe, keys.
  rewrite (on_cache_read _ _ _ _ _ _ _ _ Hc (run_items_cur _ _ _ _ Ho _ _ _)).
  rewrite (on_cache_read _ _ _ _ _ _ _ _ Hc (run_values_cur _ _ _ _ Ho _ _ _)).
  rewrite (on_cache_read _ _ _ _ _ _ _ _ Hc (run_iter_cur _ _ _ _ Ho _ _ _)).
  rewrite (on_cache_read _ _ _ _ _ _ _ _ Hc (run_reversed_cur _ _ _ _ Ho _ _ _)).
  rewrite (on_cache_read _ _ _ _ _ _ _ _ Hc (run_len_cur _ _ _ _ Ho _ _ _)).
  cbn [fmap option_fmap option_map fst]. f_equal.
  apply list_fmap_ext. intros ? key ?.
  by rewrite (on_cache_read _ _ _ _ _ _ _ _ Hc (run_contains_cur _ _ _ _ Ho _ _ _ key)).
Qed.


(** * The operations of one cache *)

(** C1. On a cache of positive capacity that satisfies the invariants,
    [set(key, value)] returns [None] and never raises.  If [key] is present
    its value is replaced and the key moves to the back of the queue, the
    other keys keeping their order and none being evicted.  If [key] is
    absent and the store is full, the key at the front of the queue leaves
    the store and the queue before the new entry goes to the back.  If
    [key] is absent and the store is not full, the new entry goes to the
    back directly. *)
Theorem setitem_spec h self cap r m ks key v :
  cache_at h self (VInt cap) r m ks → inv cap m ks → (0 < cap)%Z →
  ∃ m' ks',
    run (__setitem__ self key v) h = Some (Returned tt, put r m' ks' h) ∧
    (∀ old, m !! key = Some old →
       ∃ l1 l2, ks = l1 ++ (key :: l2) ∧ (key ∉ l1) ∧ (key ∉ l2) ∧
         m' = <[key:=v]> m ∧ ks' = l1 ++ l2 ++ [key] ∧ dom m' = dom m) ∧
    (m !! key = None → Z.of_nat (size m) = cap →
       ∃ lru rest, ks = lru :: rest ∧ is_Some (m !! lru) ∧
         m' = <[key:=v]> (delete lru m) ∧ ks' = rest ++ [key]) ∧
    (m !! key = None → (Z.of_nat (size m) < cap)%Z →
       m' = <[key:=v]> m ∧ ks' = ks ++ [key]).
Proof.
  intros Hc Hinv Hpos.
  exists (setitem_effect (VInt cap) m ks key v).2.1, (setitem_effect (VInt cap) m ks key v).2.2.
  split.
  - rewrite (run_setitem _ _ _ _ _ _ _ _ Hc).
    by destruct (inv_setitem _ _ _ key v Hinv Hpos) as [_ ->].
  - split_and!.
    + intros old Hk.
      destruct (inv_present _ _ _ _ _ Hinv Hk) as (l1 & l2 & E & Hk1 & Hk2 & _).
      exists l1, l2. rewrite (setitem_effect_present _ _ _ _ _ _ _ _ Hinv Hk E Hk1). cbn.
      split_and!; try done.
      rewrite dom_insert_L. apply elem_of_dom_2 in Hk. set_solver.
    + intros Hk Hsz.
      destruct (setitem_effect_full _ _ _ _ v Hinv Hpos Hk Hsz) as (lru & rest & E & Hl & ->).
      by exists lru, rest.
    + intros Hk Hsz. rewrite setitem_effect_room; [done..|]. intros [=]. lia.
Qed.

(** C4. On a cache that satisfies the invariants, [self[key]] raises
    [KeyError] when [key] is absent and otherwise returns the stored value
    and moves [key] to the back of the queue.  [get(key, default)] never
    raises: for an absent key it returns [default] and leaves the heap as
    it was, for a present key it does what [self[key]] does. *)
Theorem getitem_get_spec h self cap r m ks key default :
  cache_at h self (VInt cap) r m ks → inv cap m ks →
  (m !! key = None →
     run (__getitem__ self key) h = Some (Raised KeyError, h) ∧
     run (get self key default) h = Some (Returned default, h)) ∧
  (∀ v, m !! key = Some v →
     ∃ l1 l2, ks = l1 ++ (key :: l2) ∧ (key ∉ l1) ∧ (key ∉ l2) ∧
       run (__getitem__ self key) h = Some (Returned v, put r m (l1 ++ l2 ++ [key]) h) ∧
       run (get self key default) h = run (__getitem__ self key) h).
Proof.
  intros Hc Hinv. pose proof (at_obj _ _ _ _ _ _ Hc) as Ho. split.
  - intros Hk. split.
    + rewrite (run_getitem _ _ _ _ _ _ _ Hc), (getitem_effect_absent _ _ _ Hk). cbn.
      by rewrite (put_same _ _ _ _ _ _ Hc).
    + eapply on_cache_read; [done|].
      rewrite (run_get_cur _ _ _ _ Ho), (getitem_effect_absent _ _ _ Hk). done.
  - intros v Hk.
    destruct (inv_present _ _ _ _ _ Hinv Hk) as (l1 & l2 & E & Hk1 & Hk2 & _).
    exists l1, l2. split_and!; try done.
    + rewrite (run_getitem _ _ _ _ _ _ _ Hc).
      by rewrite (getitem_effect_present _ _ _ _ _ _ _ Hinv Hk E Hk1).
    + rewrite (run_getitem _ _ _ _ _ _ _ Hc).
      eapply on_cache; [done|].
      rewrite (run_get_cur _ _ _ _ Ho).
      by rewrite (getitem_effect_present _ _ _ _ _ _ _ Hinv Hk E Hk1).
Qed.

(** C5. On a cache that satisfies the invariants: for an absent key,
    [del self[key]] and [self[key]] raise [KeyError] and leave the heap
    exactly as it was; for a present key, [del self[key]] returns, the key
    is gone from the store and from the queue, and deleting it once more
    raises [KeyError]. *)
Theorem delitem_spec h self cap r m ks key :
  cache_at h self (VInt cap) r m ks → inv cap m ks →
  (m !! key = None →
     run (__delitem__ self key) h = Some (Raised KeyError, h) ∧
     run (__getitem__ self key) h = Some (Raised KeyError, h)) ∧
  (∀ v, m !! key = Some v →
     ∃ l1 l2, ks = l1 ++ (key :: l2) ∧
       run (__delitem__ self key) h =
         Some (Returned tt, put r (delete key m) (l1 ++ l2) h) ∧
       delete key m !! key = None ∧ (key ∉ l1 ++ l2) ∧
       run (__delitem__ self key) (put r (delete key m) (l1 ++ l2) h) =
         Some (Raised KeyError, put r (delete key m) (l1 ++ l2) h)).
Proof.
  intros Hc Hinv. split.
  - intros Hk. split.
    + rewrite (run_delitem _ _ _ _ _ _ _ Hc). unfold delitem_effect. rewrite Hk. cbn.
      by rewrite (put_same _ _ _ _ _ _ Hc).
    + rewrite (run_getitem _ _ _ _ _ _ _ Hc), (getitem_effect_absent _ _ _ Hk). cbn.
      by rewrite (put_same _ _ _ _ _ _ Hc).
  - intros v Hk.
    destruct (inv_present _ _ _ _ _ Hinv Hk) as (l1 & l2 & E & Hk1 & Hk2 & _).
    exists l1, l2. split_and!; [done| |apply lookup_delete_eq| |].
    + rewrite (run_delitem _ _ _ _ _ _ _ Hc).
      by rewrite (delitem_effect_present _ _ _ _ _ _ Hk E Hk1).
    + rewrite elem_of_app. tauto.
    + pose proof (cache_at_put _ _ _ _ _ _ (delete key m) (l1 ++ l2) Hc) as Hc'.
      rewrite (run_delitem _ _ _ _ _ _ _ Hc'). unfold delitem_effect.
      rewrite lookup_delete_eq. cbn. by rewrite (put_same _ _ _ _ _ _ Hc').
Qed.

(** C6. On a cache that satisfies the invariants, [items()] returns the
    pairs of the queue's keys with their stored values in the reverse of
    the queue order (most recently used first); iteration and [keys()]
    yield the keys in that reverse order, reversed iteration yields the
    queue order itself, and [values()] are the values of [items()]. *)
Theorem items_order h self cap r m ks :
  cache_at h self (VInt cap) r m ks → inv cap m ks →
  ∃ its, its.*1 = ks ∧ Forall (λ kv, m !! kv.1 = Some kv.2) its ∧
    run (items self) h = Some (Returned (reverse its), h) ∧
    run (__iter__ self) h = Some (Returned (reverse ks), h) ∧
    run (__reversed__ self) h = Some (Returned ks, h) ∧
    run (keys self) h = Some (Returned (reverse ks), h) ∧
    run (values self) h = Some (Returned (reverse its).*2, h).
Proof.
  intros Hc Hinv. pose proof (at_obj _ _ _ _ _ _ Hc) as Ho.
  destruct (items_effect_inv _ _ _ Hinv) as (its & E1 & E2 & E3).
  exists its. split_and!; [done..| | | | |]; (eapply on_cache_read; [done|]).
  - by rewrite (run_items_cur _ _ _ _ Ho), E3.
  - by rewrite (run_iter_cur _ _ _ _ Ho).
  - by rewrite (run_reversed_cur _ _ _ _ Ho).
  - unfold keys. by rewrite (run_iter_cur _ _ _ _ Ho).
  - by rewrite (run_values_cur _ _ _ _ Ho), E3.
Qed.

(** C3, as the code has it.  On a cache of positive capacity that satisfies
    the invariants: for a present key, [setdefault(key, default)] does what
    [self[key]] does, it returns the stored value, leaves the store as it
    was and moves [key] to the back of the queue; for an absent key it
    does what [self[key] = default] does and returns [default]. *)
Theorem setdefault_spec h self cap r m ks key default :
  cache_at h self (VInt cap) r m ks → inv cap m ks → (0 < cap)%Z →
  (∀ v, m !! key = Some v →
     ∃ l1 l2, ks = l1 ++ (key :: l2) ∧ (key ∉ l1) ∧ (key ∉ l2) ∧
       run (setdefault self key default) h =
         Some (Returned v, put r m (l1 ++ l2 ++ [key]) h) ∧
       run (setdefault self key default) h = run (__getitem__ self key) h) ∧
  (m !! key = None →
     ∃ h', run (__setitem__ self key default) h = Some (Returned tt, h') ∧
       run (setdefault self key default) h = Some (Returned default, h')).
Proof.
  intros Hc Hinv Hpos. pose proof (at_obj _ _ _ _ _ _ Hc) as Ho. split.
  - intros v Hk.
    destruct (inv_present _ _ _ _ _ Hinv Hk) as (l1 & l2 & E & Hk1 & Hk2 & _).
    exists l1, l2.
    assert (run (setdefault self key default) h =
            Some (Returned v, put r m (l1 ++ l2 ++ [key]) h)) as Hrun.
    { eapply on_cache; [done|]. rewrite (run_setdefault_cur _ _ _ _ Ho).
      by rewrite (setdefault_effect_present _ _ _ _ _ _ _ _ Hinv Hk E Hk1). }
    split_and!; try done.
    rewrite Hrun, (run_getitem _ _ _ _ _ _ _ Hc).
    by rewrite (getitem_effect_present _ _ _ _ _ _ _ Hinv Hk E Hk1).
  - intros Hk. eexists. split.
    + rewrite (run_setitem _ _ _ _ _ _ _ _ Hc).
      by destruct (inv_setitem _ _ _ key default Hinv Hpos) as [_ ->].
    + eapply on_cache; [done|]. rewrite (run_setdefault_cur _ _ _ _ Ho).
      rewrite (setdefault_effect_absent _ _ _ _ _ Hk).
      by destruct (inv_setitem _ _ _ key default Hinv Hpos) as [_ ->].
Qed.

(** * Heaps reached by calls *)

(** The heap after [LRUCache(cap)] on the empty heap and any calls satisfies
    the invariants of every cache on it. *)
Lemma reachable_heap_inv cap self h0 cls h :
  (0 ≤ cap)%Z →
  run (LRUCache (VInt cap)) empty_heap = Some (Returned self, h0) →
  run_calls cls h0 = Some h →
  heap_inv h ∧ ∃ r, objs h !! self = Some (instance_of (VInt cap) r).
Proof.
  intros Hcap Hnew Hr. rewrite run_LRUCache in Hnew. simplify_eq.
  assert (heap_inv (alloc (VInt cap) ∅ [] empty_heap)) as H0.
  { apply heap_inv_alloc; [apply heap_inv_empty|by apply inv_empty]. }
  destruct (calls_inv _ _ _ H0 Hr) as (Hh & Hkeep & _). split; [done|].
  eexists. apply Hkeep, (at_obj _ _ _ _ _ _ (cache_at_alloc _ _ _ _)).
Qed.

(** C2. A cache is constructed with a positive capacity and any sequence of
    calls is made, on it and on the copies made on the way, each call run
    to its end.  Then the store and the queue of the cache hold the same
    keys, the queue holds no key twice, so it is as long as the store is
    large, and the store holds at most [cap] entries.  The same is true of
    every cache on the heap, and every further call on one of them runs to
    its end. *)
Theorem invariants_hold cap self h0 cls h :
  (0 < cap)%Z →
  run (LRUCache (VInt cap)) empty_heap = Some (Returned self, h0) →
  run_calls cls h0 = Some h →
  (∃ m ks, view h self = Some (VInt cap, m, ks) ∧
     dom m = list_to_set ks ∧ NoDup ks ∧ length ks = size m ∧
     (Z.of_nat (size m) ≤ cap)%Z) ∧
  (∀ x, is_Some (objs h !! x) →
     ∃ capx m ks, view h x = Some (VInt capx, m, ks) ∧ inv capx m ks) ∧
  (∀ cl, is_Some (objs h !! target cl) → ∃ o h', run (do_call cl) h = Some (o, h')).
Proof.
  intros Hcap Hnew Hr.
  destruct (reachable_heap_inv cap self h0 cls h) as (Hh & r & Ho); [lia|done..|].
  split_and!.
  - destruct (hi_caches _ Hh _ _ Ho) as (cap' & r' & m & ks & Hc & Hinv).
    destruct (same_instance _ _ _ _ _ _ Ho (at_obj _ _ _ _ _ _ Hc)) as [[= <-] <-].
    exists m, ks. pose proof (inv_length _ _ _ Hinv) as Hlen.
    destruct Hinv as (? & ? & ?). split_and!; [by eapply view_cache_at|done..].
  - intros x [i Hx]. destruct (hi_caches _ Hh _ _ Hx) as (capx & rx & m & ks & Hc & Hinv).
    exists capx, m, ks. split; [by eapply view_cache_at|done].
  - intros cl Hcl. destruct (call_step h cl Hh Hcl) as (o & h' & E & _). eauto.
Qed.

(** C10. A cache is constructed with capacity 0.  After any sequence of
    calls it is still empty, and [self[key] = v] raises [IndexError] (from
    [popleft] on the empty queue) and leaves the heap as it was: the store
    is still empty and the invariants hold. *)
Theorem setitem_capacity_zero self h0 cls h key v :
  run (LRUCache (VInt 0)) empty_heap = Some (Returned self, h0) →
  run_calls cls h0 = Some h →
  view h self = Some (VInt 0, ∅, []) ∧
  run (__setitem__ self key v) h = Some (Raised IndexError, h) ∧
  inv 0 (∅ : gmap K V) [].
Proof.
  intros Hnew Hr.
  destruct (reachable_heap_inv 0 self h0 cls h) as (Hh & r & Ho); [lia|done..|].
  destruct (hi_caches _ Hh _ _ Ho) as (cap' & r' & m & ks & Hc & Hinv).
  destruct (same_instance _ _ _ _ _ _ Ho (at_obj _ _ _ _ _ _ Hc)) as [[= <-] <-].
  destruct (inv_zero _ _ Hinv) as [-> ->]. split_and!.
  - by eapply view_cache_at.
  - rewrite (run_setitem _ _ _ _ _ _ _ _ Hc), setitem_effect_zero. cbn.
    by rewrite (put_same _ _ _ _ _ _ Hc).
  - done.
Qed.


(** C8. [__getstate__] returns the capacity and references to the store and
    the queue, and no lock.  Rebuilding an instance from that state gives a
    new cache with the same capacity, store contents and queue order, on
    which every reading method answers as on the original, and whose lock
    is a new, free lock, different from the original's.  The same holds
    when the state arrives as a duplicate, its store at [dl] and its queue
    at [ql] on some heap [h2], as after unpickling. *)
Theorem getstate_setstate_roundtrip h self c r m ks :
  cache_at h self c r m ks →
  run (__getstate__ self) h = Some (Returned (state_of c (r_dict r) (r_deque r)), h) ∧
  dom (state_of c (r_dict r) (r_deque r)) = {[ "capacity"; "_mapping"; "_queue" ]} ∧
  state_of c (r_dict r) (r_deque r) !! "_wlock" = None ∧
  (∃ new lk h',
     run (reconstruct (state_of c (r_dict r) (r_deque r))) h = Some (Returned new, h') ∧
     objs h !! new = None ∧ locks h !! lk = None ∧ lk ≠ r_lock r ∧
     cache_at h' new c (mkRefs (r_dict r) (r_deque r) lk) m ks ∧
     view h' new = view h self ∧ view h' self = view h self ∧
     ∀ probe, observe h' new probe = observe h self probe) ∧
  (∀ h2 dl ql, dicts h2 !! dl = Some m → deques h2 !! ql = Some ks →
     ∃ new lk h',
       run (reconstruct (state_of c dl ql)) h2 = Some (Returned new, h') ∧
       objs h2 !! new = None ∧ locks h2 !! lk = None ∧
       cache_at h' new c (mkRefs dl ql lk) m ks ∧
       view h' new = view h self ∧
       ∀ probe, observe h' new probe = observe h self probe).
Proof.
  intros Hc. pose proof (at_obj _ _ _ _ _ _ Hc) as Ho. split_and!.
  - eapply on_cache_read; [done|]. apply (run_getstate_cur _ _ _ _ Ho).
  - unfold state_of. rewrite !dom_insert_L, dom_empty_L. set_solver.
  - reflexivity.
  - exists (fresh_obj h), (r_lock (fresh_refs h)), (rebuilt c (r_dict r) (r_deque r) h).
    pose proof (cache_at_rebuilt h c _ _ _ _ (at_dict _ _ _ _ _ _ Hc) (at_deque _ _ _ _ _ _ Hc))
      as Hnew.
    pose proof (cache_at_rebuilt_other h c (r_dict r) (r_deque r) _ _ _ _ _ Hc) as Hself.
    split_and!.
    + apply run_reconstruct.
    + apply fresh_obj_None.
    + apply fresh_lock_None.
    + intros E. pose proof (fresh_lock_None h) as Hf.
      by rewrite E, (at_lock _ _ _ _ _ _ Hc) in Hf.
    + done.
    + by rewrite (view_cache_at _ _ _ _ _ _ Hc), (view_cache_at _ _ _ _ _ _ Hnew).
    + by rewrite (view_cache_at _ _ _ _ _ _ Hc), (view_cache_at _ _ _ _ _ _ Hself).
    + intros probe.
      by rewrite (observe_cache_at _ _ _ _ _ _ _ Hc), (observe_cache_at _ _ _ _ _ _ _ Hnew).
  - intros h2 dl ql Hd Hq.
    exists (fresh_obj h2), (r_lock (fresh_refs h2)), (rebuilt c dl ql h2).
    pose proof (cache_at_rebuilt h2 c _ _ _ _ Hd Hq) as Hnew.
    split_and!.
    + apply run_reconstruct.
    + apply fresh_obj_None.
    + apply fresh_lock_None.
    + done.
    + by rewrite (view_cache_at _ _ _ _ _ _ Hc), (view_cache_at _ _ _ _ _ _ Hnew).
    + intros probe.
      by rewrite (observe_cache_at _ _ _ _ _ _ _ Hc), (observe_cache_at _ _ _ _ _ _ _ Hnew).
Qed.

(** * Threads *)





Section serial.
Context {A : Type} (ts : list (prog A)) (h0 : heap) (lk : loc).








End serial.

Section structure.
Context (O : gmap loc (gmap string value)) (self : loc) (c : value) (r : refs).
Hypothesis HO : O !! self = Some (instance_of c r).























End structure.

(** ** Programs that never acquire a lock *)



















End model.

(** * Scenarios, on string keys and integer values *)

(** A cache of capacity 2 after [c["a"] = 1; c["b"] = 2]: the instance, its
    store, its queue and its lock are all at address 1 of their kind. *)
Definition demo_refs : refs := mkRefs 1%positive 1%positive 1%positive.
Definition demo_store : gmap string Z := <["a":=1%Z]> (<["b":=2%Z]> ∅).
Definition demo_heap : @heap string Z _ _ :=
  mkHeap {[1%positive := instance_of (VInt 2) demo_refs]}
         {[1%positive := demo_store]}
         {[1%positive := ["a"; "b"]]}
         {[1%positive := false]}.

(** A new cache of capacity 2, one of capacity 0, and a cache of capacity 1
    that holds ["a"]. *)
Definition demo_new : @heap string Z _ _ := alloc (VInt 2) ∅ [] empty_heap.
Definition demo_zero : @heap string Z _ _ := alloc (VInt 0) ∅ [] empty_heap.

(** Calls on the new cache: the scenarios of the specification, then a copy
    and calls on the copy (at address 2) and on the original. *)
Definition demo_calls : list (@call string Z) :=
  [ CallSetitem 1%positive "a" 1%Z; CallSetitem 1%positive "b" 2%Z; CallItems 1%positive;
    CallGetitem 1%positive "a"; CallSetitem 1%positive "c" 3%Z;
    CallContains 1%positive "b"; CallLen 1%positive; CallDelitem 1%positive "c";
    CallDelitem 1%positive "c"; CallGet 1%positive "z" 0%Z; CallCopy 1%positive;
    CallSetdefault 2%positive "d" 4%Z; CallSetitem 2%positive "e" 5%Z;
    CallClear 1%positive; CallKeys 2%positive; CallValues 2%positive;
    CallIter 1%positive; CallReversed 2%positive ].

(** Calls on the cache of capacity 0. *)
Definition zero_calls : list (@call string Z) :=
  [ CallSetitem 1%positive "a" 1%Z; CallGet 1%positive "a" 0%Z; CallClear 1%positive;
    CallCopy 1%positive; CallSetdefault 2%positive "b" 2%Z; CallItems 1%positive ].




Lemma demo_heap_built :
  run (c ← LRUCache (VInt 2); __setitem__ c "a" 1%Z;; __setitem__ c "b" 2%Z;; Ret c)
      empty_heap
  = Some (Returned 1%positive, demo_heap).
Proof. vm_compute. reflexivity. Qed.

Lemma demo_new_built :
  run (LRUCache (VInt 2)) empty_heap = Some (Returned 1%positive, demo_new).
Proof. vm_compute. reflexivity. Qed.

Lemma demo_zero_built :
  run (LRUCache (VInt 0)) empty_heap = Some (Returned 1%positive, demo_zero).
Proof. vm_compute. reflexivity. Qed.


Lemma demo_cache_at :
  cache_at demo_heap 1%positive (VInt 2) demo_refs demo_store ["a"; "b"].
Proof. split; reflexivity. Qed.

Lemma demo_inv : inv 2 demo_store ["a"; "b"].
Proof.
  split_and!.
  - vm_compute. reflexivity.
  - repeat (constructor; [set_solver|]). constructor.
  - vm_compute. discriminate.
Qed.


(** The scenarios of the specification, run through the methods. *)
Example spec_scenarios :
  fst <$> run (c ← LRUCache (VInt 2);
               __setitem__ c "a" 1%Z;; __setitem__ c "b" 2%Z;;
               i1 ← items c;
               v ← __getitem__ c "a";
               i2 ← items c;
               __setitem__ c "c" 3%Z;;
               i3 ← items c;
               n ← __len__ c;
               b ← __contains__ c "b";
               Ret (i1, v, i2, i3, n, b)) (@empty_heap string Z _ _)
  = Some (Returned ([("b", 2%Z); ("a", 1%Z)], 1%Z, [("a", 1%Z); ("b", 2%Z)],
                    [("c", 3%Z); ("a", 1%Z)], 2, false)).
Proof. vm_compute. reflexivity. Qed.

(** C1 at [c["c"] = 3] on the full cache: ["a"] is evicted. *)
Lemma setitem_spec_witness :
  cache_at demo_heap 1%positive (VInt 2) demo_refs demo_store ["a"; "b"] ∧
  inv 2 demo_store ["a"; "b"] ∧ (0 < 2)%Z ∧
  ∃ m' ks',
    run (__setitem__ 1%positive "c" 3%Z) demo_heap =
      Some (Returned tt, put demo_refs m' ks' demo_heap) ∧
    (demo_store !! "c" = None → Z.of_nat (size demo_store) = 2%Z →
     ∃ lru rest, ["a"; "b"] = lru :: rest ∧ is_Some (demo_store !! lru) ∧
       m' = <["c":=3%Z]> (delete lru demo_store) ∧ ks' = rest ++ ["c"]).
Proof.
  split; [exact demo_cache_at|]. split; [exact demo_inv|]. split; [lia|].
  destruct (setitem_spec demo_heap 1%positive 2 demo_refs demo_store ["a"; "b"] "c" 3%Z
              demo_cache_at demo_inv ltac:(lia)) as (m' & ks' & Hrun & _ & Hfull & _).
  exists m', ks'. split; [exact Hrun|exact Hfull].
Defined.

(** C2 at the calls [demo_calls]. *)
Lemma invariants_hold_witness :
  (0 < 2)%Z ∧
  run (LRUCache (VInt 2)) empty_heap = Some (Returned 1%positive, demo_new) ∧
  ∃ h, run_calls demo_calls demo_new = Some h ∧
    ∃ m ks, view h 1%positive = Some (VInt 2, m, ks) ∧
      dom m = list_to_set ks ∧ NoDup ks ∧ length ks = size m ∧
      (Z.of_nat (size m) ≤ 2)%Z.
Proof.
  split; [lia|]. split; [exact demo_new_built|].
  destruct (run_calls demo_calls demo_new) as [h|] eqn:E; [|vm_compute in E; discriminate].
  exists h. split; [reflexivity|].
  exact (proj1 (invariants_hold 2 1%positive demo_new demo_calls h
                  ltac:(lia) demo_new_built E)).
Defined.

(** C3 as stated fails: [setdefault("a", 9)] on the cache whose queue is
    [a, b] returns the stored 1 and leaves the queue as [b, a]. *)
Lemma setdefault_promotes :
  run (setdefault 1%positive "a" 9%Z) demo_heap =
    Some (Returned 1%Z, put demo_refs demo_store ["b"; "a"] demo_heap) ∧
  view demo_heap 1%positive = Some (VInt 2, demo_store, ["a"; "b"]) ∧
  view (put demo_refs demo_store ["b"; "a"] demo_heap) 1%positive =
    Some (VInt 2, demo_store, ["b"; "a"]) ∧
  put demo_refs demo_store ["b"; "a"] demo_heap ≠ demo_heap.
Proof.
  split_and!; [vm_compute; reflexivity..|].
  intros E. apply (f_equal (λ h, deques h !! 1%positive)) in E. vm_compute in E.
  discriminate.
Qed.

(** C3, as amended, at [setdefault("a", 9)]. *)
Lemma setdefault_spec_witness :
  cache_at demo_heap 1%positive (VInt 2) demo_refs demo_store ["a"; "b"] ∧
  inv 2 demo_store ["a"; "b"] ∧ (0 < 2)%Z ∧ demo_store !! "a" = Some 1%Z ∧
  run (setdefault 1%positive "a" 9%Z) demo_heap = run (__getitem__ 1%positive "a") demo_heap.
Proof.
  split; [exact demo_cache_at|]. split; [exact demo_inv|]. split; [lia|].
  split; [reflexivity|].
  destruct (proj1 (setdefault_spec demo_heap 1%positive 2 demo_refs demo_store ["a"; "b"]
                     "a" 9%Z demo_cache_at demo_inv ltac:(lia)) 1%Z eq_refl)
    as (l1 & l2 & _ & _ & _ & _ & Hsame).
  exact Hsame.
Defined.

(** C4 at the absent key ["z"]. *)
Lemma getitem_get_spec_witness :
  cache_at demo_heap 1%positive (VInt 2) demo_refs demo_store ["a"; "b"] ∧
  inv 2 demo_store ["a"; "b"] ∧ demo_store !! "z" = None ∧
  run (__getitem__ 1%positive "z") demo_heap = Some (Raised KeyError, demo_heap) ∧
  run (get 1%positive "z" 0%Z) demo_heap = Some (Returned 0%Z, demo_heap).
Proof.
  split; [exact demo_cache_at|]. split; [exact demo_inv|]. split; [reflexivity|].
  exact (proj1 (getitem_get_spec demo_heap 1%positive 2 demo_refs demo_store ["a"; "b"]
                  "z" 0%Z demo_cache_at demo_inv) eq_refl).
Defined.

(** C5 at the absent key ["z"]. *)
Lemma delitem_spec_witness :
  cache_at demo_heap 1%positive (VInt 2) demo_refs demo_store ["a"; "b"] ∧
  inv 2 demo_store ["a"; "b"] ∧ demo_store !! "z" = None ∧
  run (__delitem__ 1%positive "z") demo_heap = Some (Raised KeyError, demo_heap) ∧
  run (__getitem__ 1%positive "z") demo_heap = Some (Raised KeyError, demo_heap).
Proof.
  split; [exact demo_cache_at|]. split; [exact demo_inv|]. split; [reflexivity|].
  exact (proj1 (delitem_spec demo_heap 1%positive 2 demo_refs demo_store ["a"; "b"] "z"
                  demo_cache_at demo_inv) eq_refl).
Defined.

(** C6 on the cache whose queue is [a, b]. *)
Lemma items_order_witness :
  cache_at demo_heap 1%positive (VInt 2) demo_refs demo_store ["a"; "b"] ∧
  inv 2 demo_store ["a"; "b"] ∧
  ∃ its, its.*1 = ["a"; "b"] ∧
    run (items 1%positive) demo_heap = Some (Returned (reverse its), demo_heap) ∧
    run (__iter__ 1%positive) demo_heap = Some (Returned (reverse ["a"; "b"]), demo_heap) ∧
    run (__reversed__ 1%positive) demo_heap = Some (Returned ["a"; "b"], demo_heap).
Proof.
  split; [exact demo_cache_at|]. split; [exact demo_inv|].
  destruct (items_order demo_heap 1%positive 2 demo_refs demo_store ["a"; "b"]
              demo_cache_at demo_inv) as (its & H1 & _ & H2 & H3 & H4 & _).
  exists its. split; [exact H1|]. split; [exact H2|]. split; [exact H3|exact H4].
Defined.


(** C8 on the cache whose queue is [a, b]. *)
Lemma getstate_setstate_roundtrip_witness :
  cache_at demo_heap 1%positive (VInt 2) demo_refs demo_store ["a"; "b"] ∧
  run (__getstate__ 1%positive) demo_heap =
    Some (Returned (state_of (VInt 2) 1%positive 1%positive), demo_heap) ∧
  state_of (VInt 2) 1%positive 1%positive !! "_wlock" = None.
Proof.
  split; [exact demo_cache_at|].
  destruct (getstate_setstate_roundtrip demo_heap 1%positive (VInt 2) demo_refs demo_store
              ["a"; "b"] demo_cache_at) as (H1 & _ & H2 & _).
  split; [exact H1|exact H2].
Defined.



(** C10 at the calls [zero_calls]. *)
Lemma setitem_capacity_zero_witness :
  run (LRUCache (VInt 0)) empty_heap = Some (Returned 1%positive, demo_zero) ∧
  ∃ h, run_calls zero_calls demo_zero = Some h ∧
    view h 1%positive = Some (VInt 0, ∅, []) ∧
    run (__setitem__ 1%positive "a" 1%Z) h = Some (Raised IndexError, h).
Proof.
  split; [exact demo_zero_built|].
  destruct (run_calls zero_calls demo_zero) as [h|] eqn:E; [|vm_compute in E; discriminate].
  exists h. split; [reflexivity|].
  destruct (setitem_capacity_zero 1%positive demo_zero zero_calls h "a" 1%Z
              demo_zero_built E) as (H1 & H2 & _).
  split; [exact H1|exact H2].
Defined.

(** * Further properties of the cache *)

Section more_cache.
Context {K V : Type} `{Countable K}.
Implicit Types (h : @heap K V _ _) (m : gmap K V) (ks : list K) (key : K) (v : V).

(** The store and the queue hold the same keys, and the queue holds none
    twice: the invariants without the bound on the size. *)
Definition inv_keys m ks : Prop := dom m = list_to_set ks ∧ NoDup ks.

(** The heap [h] with the lock behind [r] held, as while some thread is
    inside a guarded call. *)
Definition held (r : refs) h : @heap K V _ _ := set_locks (insert (r_lock r) true) h.

Lemma read_items h self c r m ks :
  cache_at h self c r m ks → run (items self) h = Some (items_effect m ks, h).
Proof.
  intros Hc. eapply on_cache_read; [done|].
  apply (run_items_cur _ _ _ _ (at_obj _ _ _ _ _ _ Hc)).
Qed.

Lemma read_values h self c r m ks :
  cache_at h self c r m ks →
  run (values self) h =
  Some (match items_effect m ks with
        | Returned its => Returned (map snd its)
        | Raised e => Raised e
        end, h).
Proof.
  intros Hc. eapply on_cache_read; [done|].
  apply (run_values_cur _ _ _ _ (at_obj _ _ _ _ _ _ Hc)).
Qed.

Lemma read_keys h self c r m ks :
  cache_at h self c r m ks → run (keys self) h = Some (Returned (reverse ks), h).
Proof.
  intros Hc. eapply on_cache_read; [done|].
  apply (run_iter_cur _ _ _ _ (at_obj _ _ _ _ _ _ Hc)).
Qed.

Lemma read_len h self c r m ks :
  cache_at h self c r m ks → run (__len__ self) h = Some (Returned (size m), h).
Proof.
  intros Hc. eapply on_cache_read; [done|].
  apply (run_len_cur _ _ _ _ (at_obj _ _ _ _ _ _ Hc)).
Qed.

Lemma read_contains h self c r m ks key :
  cache_at h self c r m ks →
  run (__contains__ self key) h = Some (Returned (bool_decide (is_Some (m !! key))), h).
Proof.
  intros Hc. eapply on_cache_read; [done|].
  apply (run_contains_cur _ _ _ _ (at_obj _ _ _ _ _ _ Hc)).
Qed.

Lemma put_put (r : refs) m ks m' ks' h : put r m' ks' (put r m ks h) = put r m' ks' h.
Proof. unfold put, set_deques, set_dicts. cbn. by rewrite !insert_insert_eq. Qed.

(** After a successful [__setitem__] the key is stored with the new value
    and is the last key of the queue. *)
Lemma setitem_effect_shape cap m ks key v :
  inv cap m ks → (0 < cap)%Z →
  ∃ m0 ks0,
    setitem_effect (VInt cap) m ks key v = (Returned tt, (<[key:=v]> m0, ks0 ++ [key])) ∧
    inv cap (<[key:=v]> m0) (ks0 ++ [key]).
Proof.
  intros Hinv Hpos. pose proof (inv_setitem _ _ _ key v Hinv Hpos) as [Hinv' _].
  destruct (m !! key) as [old|] eqn:Hk.
  - destruct (inv_present _ _ _ _ _ Hinv Hk) as (l1 & l2 & E & Hk1 & Hk2 & _).
    rewrite (setitem_effect_present _ _ _ _ v _ _ _ Hinv Hk E Hk1) in *.
    exists m, (l1 ++ l2). by rewrite <- app_assoc.
  - destruct (decide (Z.of_nat (size m) = cap)) as [Hsz|Hsz].
    + destruct (setitem_effect_full _ _ _ _ v Hinv Hpos Hk Hsz) as (lru & rest & _ & _ & E).
      rewrite E in *. by exists (delete lru m), rest.
    + rewrite setitem_effect_room in * by (done || congruence). by exists m, ks.
Qed.

Lemma getitem_effect_last m ks key v :
  m !! key = Some v → last ks = Some key →
  getitem_effect m ks key = (Returned v, (m, ks)).
Proof.
  intros Hk Hl. unfold getitem_effect. rewrite Hk, Hl. by rewrite decide_False by (by intros ?).
Qed.

Lemma items_effect_last cap m ks0 key v :
  inv cap m (ks0 ++ [key]) → m !! key = Some v →
  ∃ its, items_effect m (ks0 ++ [key]) = Returned ((key, v) :: its) ∧ its.*1 = reverse ks0.
Proof.
  intros Hinv Hk. destruct (items_effect_inv _ _ _ Hinv) as (its & E1 & E2 & ->).
  destruct its as [|[k' v'] its _] using rev_ind.
  { by destruct ks0. }
  rewrite fmap_app in E1. cbn in E1. apply app_inj_tail in E1 as [E1 Ek].
  apply Forall_app in E2 as [_ E2]. rewrite Forall_singleton in E2. cbn in *.
  subst k'. rewrite Hk in E2. simplify_eq. exists (reverse its).
  by rewrite reverse_snoc, fmap_reverse.
Qed.

(** X1. What is written can be read back: on a cache of positive capacity,
    after [self[key] = v] the key is in the cache, [self[key]] returns [v]
    and changes nothing any more, and [items()] starts with [(key, v)]. *)
Theorem setitem_then_getitem h self cap r m ks key v :
  cache_at h self (VInt cap) r m ks → inv cap m ks → (0 < cap)%Z →
  ∃ h1 its,
    run (__setitem__ self key v) h = Some (Returned tt, h1) ∧
    run (__getitem__ self key) h1 = Some (Returned v, h1) ∧
    run (__contains__ self key) h1 = Some (Returned true, h1) ∧
    run (items self) h1 = Some (Returned ((key, v) :: its), h1).
Proof.
  intros Hc Hinv Hpos.
  destruct (setitem_effect_shape _ _ _ key v Hinv Hpos) as (m0 & ks0 & E & Hinv').
  pose proof (cache_at_put _ _ _ _ _ _ (<[key:=v]> m0) (ks0 ++ [key]) Hc) as Hc'.
  assert ((<[key:=v]> m0 : gmap K V) !! key = Some v) as Hk by apply lookup_insert_eq.
  destruct (items_effect_last _ _ _ _ _ Hinv' Hk) as (its & Eits & _).
  exists (put r (<[key:=v]> m0) (ks0 ++ [key]) h), its. split_and!.
  - by rewrite (run_setitem _ _ _ _ _ _ _ _ Hc), E.
  - rewrite (run_getitem _ _ _ _ _ _ _ Hc'), (getitem_effect_last _ _ _ v Hk).
    + cbn. by rewrite (put_same _ _ _ _ _ _ Hc').
    + apply last_snoc.
  - rewrite (read_contains _ _ _ _ _ _ _ Hc'), Hk. by rewrite bool_decide_eq_true_2.
  - by rewrite (read_items _ _ _ _ _ _ Hc'), Eits.
Qed.

(** X2. A key that was just read is not the next one to go: on a cache of
    capacity 2 or more, after a successful [self[k]] the call
    [self[k2] = v2] for another key leaves [k] in the cache with its
    value. *)
Theorem read_key_survives_insert h self cap r m ks k v k2 v2 :
  cache_at h self (VInt cap) r m ks → inv cap m ks → (2 ≤ cap)%Z →
  m !! k = Some v → k2 ≠ k →
  ∃ h1 h2 h3,
    run (__getitem__ self k) h = Some (Returned v, h1) ∧
    run (__setitem__ self k2 v2) h1 = Some (Returned tt, h2) ∧
    run (__contains__ self k) h2 = Some (Returned true, h2) ∧
    run (__getitem__ self k) h2 = Some (Returned v, h3).
Proof.
  intros Hc Hinv Hcap Hk Hne.
  destruct (inv_present _ _ _ _ _ Hinv Hk) as (l1 & l2 & E & Hk1 & Hk2 & _).
  pose proof (getitem_effect_present _ _ _ _ _ _ _ Hinv Hk E Hk1) as Eg.
  assert (inv cap m (l1 ++ l2 ++ [k])) as Hinv1 by (subst ks; by apply inv_moved).
  set (ks1 := l1 ++ l2 ++ [k]) in *.
  pose proof (cache_at_put _ _ _ _ _ _ m ks1 Hc) as Hc1.
  destruct (inv_setitem _ _ _ k2 v2 Hinv1 ltac:(lia)) as [Hinv2 Eret].
  set (m2 := (setitem_effect (VInt cap) m ks1 k2 v2).2.1) in *.
  set (ks2 := (setitem_effect (VInt cap) m ks1 k2 v2).2.2) in *.
  pose proof (cache_at_put _ _ _ _ _ _ m2 ks2 Hc1) as Hc2.
  assert (m2 !! k = Some v) as Hk'.
  { subst m2. destruct (m !! k2) as [old|] eqn:Hk2'.
    - destruct (inv_present _ _ _ _ _ Hinv1 Hk2') as (a & b & Ea & Ha & _ & _).
      rewrite (setitem_effect_present _ _ _ _ v2 _ _ _ Hinv1 Hk2' Ea Ha). cbn.
      by rewrite lookup_insert_ne.
    - destruct (decide (Z.of_nat (size m) = cap)) as [Hsz|Hsz].
      + destruct (setitem_effect_full _ _ _ _ v2 Hinv1 ltac:(lia) Hk2' Hsz)
          as (lru & rest & Er & _ & ->). cbn.
        rewrite lookup_insert_ne by done. rewrite lookup_delete_ne; [done|].
        intros ->. pose proof (inv_length _ _ _ Hinv1) as Hlen.
        destruct Hinv1 as (_ & Hnd & _). rewrite Er in Hnd, Hlen.
        apply NoDup_cons in Hnd as [Hnin _]. apply Hnin.
        assert (last (k :: rest) = Some k) as Hl.
        { rewrite <- Er. unfold ks1. by rewrite app_assoc, last_snoc. }
        destruct rest as [|x rest]; [cbn in Hlen; lia|].
        rewrite last_cons_cons in Hl. apply last_Some in Hl as [l' ->].
        apply elem_of_app. right. left.
      + rewrite setitem_effect_room by (done || congruence). cbn.
        by rewrite lookup_insert_ne. }
  exists (put r m ks1 h), (put r m2 ks2 (put r m ks1 h)). eexists. split_and!.
  - by rewrite (run_getitem _ _ _ _ _ _ _ Hc), Eg.
  - by rewrite (run_setitem _ _ _ _ _ _ _ _ Hc1), Eret.
  - rewrite (read_contains _ _ _ _ _ _ _ Hc2), Hk'. by rewrite bool_decide_eq_true_2.
  - rewrite (run_getitem _ _ _ _ _ _ _ Hc2).
    destruct (inv_getitem _ _ _ k Hinv2) as [_ ->]. by rewrite Hk'.
Qed.

(** X3. Reading a key twice is reading it once: after a successful [self[key]]
    the same call returns the same value and leaves the heap as it is. *)
Theorem getitem_twice h self cap r m ks key v :
  cache_at h self (VInt cap) r m ks → inv cap m ks → m !! key = Some v →
  ∃ h1,
    run (__getitem__ self key) h = Some (Returned v, h1) ∧
    run (__getitem__ self key) h1 = Some (Returned v, h1).
Proof.
  intros Hc Hinv Hk.
  destruct (inv_present _ _ _ _ _ Hinv Hk) as (l1 & l2 & E & Hk1 & Hk2 & _).
  pose proof (getitem_effect_present _ _ _ _ _ _ _ Hinv Hk E Hk1) as Eg.
  pose proof (cache_at_put _ _ _ _ _ _ m (l1 ++ l2 ++ [key]) Hc) as Hc1.
  exists (put r m (l1 ++ l2 ++ [key]) h). split.
  - by rewrite (run_getitem _ _ _ _ _ _ _ Hc), Eg.
  - rewrite (run_getitem _ _ _ _ _ _ _ Hc1), (getitem_effect_last _ _ _ v Hk).
    + cbn [fst snd]. by rewrite (put_same _ _ _ _ _ _ Hc1).
    + by rewrite app_assoc, last_snoc.
Qed.

(** X4. Setting a new key on a cache that has room and deleting it again gives
    back the very heap the two calls started from. *)
Theorem setitem_then_delitem h self cap r m ks key v :
  cache_at h self (VInt cap) r m ks → inv cap m ks →
  m !! key = None → (Z.of_nat (size m) < cap)%Z →
  ∃ h1,
    run (__setitem__ self key v) h = Some (Returned tt, h1) ∧
    run (__delitem__ self key) h1 = Some (Returned tt, h).
Proof.
  intros Hc Hinv Hk Hsz.
  pose proof (cache_at_put _ _ _ _ _ _ (<[key:=v]> m) (ks ++ [key]) Hc) as Hc1.
  exists (put r (<[key:=v]> m) (ks ++ [key]) h). split.
  - rewrite (run_setitem _ _ _ _ _ _ _ _ Hc), setitem_effect_room; [done..|].
    intros [=]. lia.
  - rewrite (run_delitem _ _ _ _ _ _ _ Hc1).
    rewrite (delitem_effect_present _ _ _ v ks []);
      [|apply lookup_insert_eq|done|by eapply inv_absent].
    cbn [fst snd]. rewrite put_put, app_nil_r, delete_insert_id by done.
    by rewrite (put_same _ _ _ _ _ _ Hc).
Qed.

(** X5. [clear()] on any cache whose lock is free: the capacity stays, the store
    and the queue are empty, and every reading method says so. *)
Theorem clear_empties h self c r m ks :
  cache_at h self c r m ks →
  ∃ h1,
    run (clear self) h = Some (Returned tt, h1) ∧
    view h1 self = Some (c, ∅, []) ∧
    run (__len__ self) h1 = Some (Returned 0, h1) ∧
    run (items self) h1 = Some (Returned [], h1) ∧
    run (keys self) h1 = Some (Returned [], h1) ∧
    ∀ key,
      run (__contains__ self key) h1 = Some (Returned false, h1) ∧
      run (__getitem__ self key) h1 = Some (Raised KeyError, h1).
Proof.
  intros Hc. pose proof (cache_at_put _ _ _ _ _ _ ∅ [] Hc) as Hc1.
  exists (put r ∅ [] h). split_and!.
  - by apply (run_clear _ _ _ _ _ _ Hc).
  - by apply view_cache_at with r.
  - by rewrite (read_len _ _ _ _ _ _ Hc1), map_size_empty.
  - by rewrite (read_items _ _ _ _ _ _ Hc1).
  - by rewrite (read_keys _ _ _ _ _ _ Hc1).
  - intros key. split.
    + rewrite (read_contains _ _ _ _ _ _ _ Hc1), lookup_empty.
      rewrite bool_decide_eq_false_2; [done|]. by intros [? ?].
    + rewrite (run_getitem _ _ _ _ _ _ _ Hc1), getitem_effect_absent by apply lookup_empty.
      cbn [fst snd]. by rewrite (put_same _ _ _ _ _ _ Hc1).
Qed.

Lemma inv_keys_inv m ks : inv_keys m ks → inv (Z.of_nat (size m)) m ks.
Proof. intros [Hdom Hnd]. by split_and!. Qed.

(** X6. A cache built with a negative capacity never evicts: [self[key] = v]
    always returns, the store afterwards is the old store with [key] set to
    [v] and nothing removed, and [key] is the last of the queue. *)
Theorem negative_capacity_never_evicts h self cap r m ks key v :
  cache_at h self (VInt cap) r m ks → inv_keys m ks → (cap < 0)%Z →
  ∃ ks',
    run (__setitem__ self key v) h = Some (Returned tt, put r (<[key:=v]> m) ks' h) ∧
    inv_keys (<[key:=v]> m) ks' ∧ last ks' = Some key.
Proof.
  intros Hc Hik Hcap. pose proof (inv_keys_inv _ _ Hik) as Hinv.
  rewrite (run_setitem _ _ _ _ _ _ _ _ Hc).
  destruct (m !! key) as [old|] eqn:Hk.
  - destruct (inv_present _ _ _ _ _ Hinv Hk) as (l1 & l2 & E & Hk1 & Hk2 & Hrm).
    exists (l1 ++ l2 ++ [key]). unfold setitem_effect. rewrite Hk, Hrm.
    cbn [fst snd]. rewrite <- app_assoc. split_and!; [done| |by rewrite !app_assoc, last_snoc].
    subst ks. apply inv_moved in Hinv.
    destruct (inv_overwrite _ _ _ _ v _ Hinv Hk) as (Hd & Hn & _). by split.
  - exists (ks ++ [key]). rewrite setitem_effect_room; [|done|intros [=]; lia].
    split_and!; [done| |by rewrite last_snoc].
    pose proof (inv_absent _ _ _ _ Hinv Hk) as Hnin. destruct Hik as [Hdom Hnd]. split.
    + rewrite dom_insert_L, Hdom, list_to_set_app_L. cbn. set_solver.
    + apply NoDup_app. split_and!; [done| |apply NoDup_singleton].
      intros x Hx ->%list_elem_of_singleton. done.
Qed.

Lemma read_getnewargs h self c r m ks :
  cache_at h self c r m ks → run (__getnewargs__ self) h = Some (Returned c, h).
Proof.
  intros Hc. eapply on_cache_read; [done|]. unfold __getnewargs__.
  apply (run_getattr _ _ _ _ (at_obj _ _ _ _ _ _ Hc)). apply instance_capacity.
Qed.

(** X7. [LRUCache(capacity)] always returns, with an instance at an address not
    in use before, and the new cache is empty: length 0, no items, every key
    absent, [self[key]] raising [KeyError]; [__getnewargs__] gives back the
    capacity it was built with, whatever that value is. *)
Theorem new_cache_is_empty (c : value) h :
  ∃ self h1,
    run (LRUCache c) h = Some (Returned self, h1) ∧
    objs h !! self = None ∧
    view h1 self = Some (c, ∅, []) ∧
    run (__getnewargs__ self) h1 = Some (Returned c, h1) ∧
    run (__len__ self) h1 = Some (Returned 0, h1) ∧
    run (items self) h1 = Some (Returned [], h1) ∧
    ∀ key default,
      run (__contains__ self key) h1 = Some (Returned false, h1) ∧
      run (__getitem__ self key) h1 = Some (Raised KeyError, h1) ∧
      run (__delitem__ self key) h1 = Some (Raised KeyError, h1) ∧
      run (get self key default) h1 = Some (Returned default, h1).
Proof.
  pose proof (cache_at_alloc h c ∅ []) as Hc.
  exists (fresh_obj h), (alloc c ∅ [] h). split_and!.
  - apply run_LRUCache.
  - apply (not_elem_of_dom (D:=gset loc)). unfold fresh_obj. apply is_fresh.
  - by apply view_cache_at with (fresh_refs h).
  - by apply (read_getnewargs _ _ _ _ _ _ Hc).
  - by rewrite (read_len _ _ _ _ _ _ Hc), map_size_empty.
  - by rewrite (read_items _ _ _ _ _ _ Hc).
  - intros key default. split_and!.
    + rewrite (read_contains _ _ _ _ _ _ _ Hc), lookup_empty.
      rewrite bool_decide_eq_false_2; [done|]. by intros [? ?].
    + rewrite (run_getitem _ _ _ _ _ _ _ Hc), getitem_effect_absent by apply lookup_empty.
      cbn [fst snd]. by rewrite (put_same _ _ _ _ _ _ Hc).
    + rewrite (run_delitem _ _ _ _ _ _ _ Hc). unfold delitem_effect. rewrite lookup_empty.
      cbn [fst snd]. by rewrite (put_same _ _ _ _ _ _ Hc).
    + eapply on_cache_read; [done|].
      rewrite (run_get_cur _ _ _ _ (at_obj _ _ _ _ _ _ Hc)).
      by rewrite getitem_effect_absent by apply lookup_empty.
Qed.

(** X8. The reading methods agree with each other on a cache that satisfies the
    invariants: [keys()] and [values()] are the two columns of [items()],
    [len] is its length, no key occurs twice, [key in self] holds exactly for
    the keys listed, and [self[k]] returns [v] for every listed pair. *)
Theorem readers_agree h self c cap r m ks :
  cache_at h self c r m ks → inv cap m ks →
  ∃ its,
    run (items self) h = Some (Returned its, h) ∧
    run (keys self) h = Some (Returned its.*1, h) ∧
    run (values self) h = Some (Returned its.*2, h) ∧
    run (__len__ self) h = Some (Returned (length its), h) ∧
    NoDup its.*1 ∧
    (∀ key, run (__contains__ self key) h =
            Some (Returned (bool_decide (key ∈ its.*1)), h)) ∧
    (∀ k v, (k, v) ∈ its → ∃ h', run (__getitem__ self k) h = Some (Returned v, h')).
Proof.
  intros Hc Hinv. destruct (items_effect_inv _ _ _ Hinv) as (its & E1 & E2 & E3).
  pose proof Hinv as (Hdom & Hnd & _).
  exists (reverse its). rewrite fmap_reverse, E1. split_and!.
  - by rewrite (read_items _ _ _ _ _ _ Hc), E3.
  - by rewrite (read_keys _ _ _ _ _ _ Hc).
  - by rewrite (read_values _ _ _ _ _ _ Hc), E3.
  - rewrite (read_len _ _ _ _ _ _ Hc), (inv_length _ _ _ Hinv), <- E1.
    by rewrite length_reverse, length_fmap.
  - by rewrite reverse_Permutation.
  - intros key. rewrite (read_contains _ _ _ _ _ _ _ Hc). do 3 f_equal.
    apply bool_decide_ext. rewrite elem_of_reverse, <- elem_of_dom, Hdom.
    apply elem_of_list_to_set.
  - intros k v Hkv. rewrite elem_of_reverse in Hkv.
    rewrite Forall_forall in E2. specialize (E2 _ Hkv). cbn in E2.
    rewrite (run_getitem _ _ _ _ _ _ _ Hc).
    destruct (inv_getitem _ _ _ k Hinv) as [_ ->]. rewrite E2. by eexists.
Qed.

Lemma held_cur h self c r m ks :
  cache_at h self c r m ks → held r h = cur r true m ks h.
Proof.
  intros [_ Hd Hq _]. unfold held, cur, set_locks. cbn.
  by rewrite (insert_id _ _ _ Hd), (insert_id _ _ _ Hq).
Qed.

(** X9. The lock is not reentrant: while it is held, [self[key]],
    [self[key] = v], [del self[key]], [get], [setdefault] and [clear] cannot
    take a step, and the methods that take no lock ([items], [keys],
    [__len__], [__contains__]) answer as if it were free. *)
Theorem held_lock_blocks h self c r m ks key v :
  cache_at h self c r m ks →
  run (__getitem__ self key) (held r h) = None ∧
  run (__setitem__ self key v) (held r h) = None ∧
  run (__delitem__ self key) (held r h) = None ∧
  run (get self key v) (held r h) = None ∧
  run (setdefault self key v) (held r h) = None ∧
  run (clear self) (held r h) = None ∧
  run (items self) (held r h) = Some (items_effect m ks, held r h) ∧
  run (keys self) (held r h) = Some (Returned (reverse ks), held r h) ∧
  run (__len__ self) (held r h) = Some (Returned (size m), held r h) ∧
  run (__contains__ self key) (held r h) =
    Some (Returned (bool_decide (is_Some (m !! key))), held r h).
Proof.
  intros Hc. rewrite (held_cur _ _ _ _ _ _ Hc).
  pose proof (run_wlock_acquire_held _ _ _ _ (at_obj _ _ _ _ _ _ Hc) m ks) as Hb.
  assert (run (__getitem__ self key) (cur r true m ks h) = None) as Hg.
  { unfold __getitem__. by rewrite run_bind, Hb. }
  split_and!.
  - done.
  - unfold __setitem__. by rewrite run_bind, Hb.
  - unfold __delitem__. by rewrite run_bind, Hb.
  - unfold get. by rewrite run_try_except, Hg.
  - unfold setdefault. by rewrite run_try_except, Hg.
  - unfold clear. by rewrite run_bind, Hb.
  - apply (run_items_cur _ _ _ _ (at_obj _ _ _ _ _ _ Hc)).
  - apply (run_iter_cur _ _ _ _ (at_obj _ _ _ _ _ _ Hc)).
  - apply (run_len_cur _ _ _ _ (at_obj _ _ _ _ _ _ Hc)).
  - apply (run_contains_cur _ _ _ _ (at_obj _ _ _ _ _ _ Hc)).
Qed.

(** X10. A key that is in the store but missing from the queue: [self[key]] and
    [del self[key]] pass over the [ValueError] of the queue's [remove] (the
    read appends the key, the delete drops the entry), while
    [self[key] = v] lets it escape and changes nothing. *)
Theorem queue_miss_tolerated h self c r m ks key old v :
  cache_at h self c r m ks → m !! key = Some old → key ∉ ks → ks ≠ [] →
  run (__getitem__ self key) h = Some (Returned old, put r m (ks ++ [key]) h) ∧
  run (__delitem__ self key) h = Some (Returned tt, put r (delete key m) ks h) ∧
  run (__setitem__ self key v) h = Some (Raised ValueError, h).
Proof.
  intros Hc Hk Hnin Hne.
  assert (remove_first key ks = None) as Hrm by by apply remove_first_None.
  split_and!.
  - rewrite (run_getitem _ _ _ _ _ _ _ Hc). unfold getitem_effect. rewrite Hk, Hrm.
    destruct (last ks) as [back|] eqn:Hl; [|by apply last_None in Hl].
    rewrite decide_True; [done|]. intros ->. apply Hnin.
    apply last_Some in Hl as [l' ->]. apply elem_of_app. right. left.
  - rewrite (run_delitem _ _ _ _ _ _ _ Hc). unfold delitem_effect. by rewrite Hk, Hrm.
  - rewrite (run_setitem _ _ _ _ _ _ _ _ Hc). unfold setitem_effect. rewrite Hk, Hrm.
    cbn [fst snd]. by rewrite (put_same _ _ _ _ _ _ Hc).
Qed.
Lemma run_calls_app (cls1 cls2 : list (@call K V)) h :
  run_calls (cls1 ++ cls2) h = run_calls cls1 h ≫= run_calls cls2.
Proof.
  revert h. induction cls1 as [|cl cls1 IH]; intros h; [done|]. cbn.
  destruct (run (do_call cl) h) as [[o h']|]; [apply IH|done].
Qed.

Lemma inv_list_to_map (cap : Z) (kept : list (K * V)) :
  NoDup kept.*1 → (Z.of_nat (length kept) ≤ cap)%Z →
  inv cap (list_to_map kept) kept.*1 ∧ size (list_to_map kept : gmap K V) = length kept.
Proof.
  intros Hnd Hlen.
  assert (size (list_to_map kept : gmap K V) = length kept) as Hsz.
  { rewrite <- size_dom, dom_list_to_map_L, size_list_to_set by done. apply length_fmap. }
  split; [|done]. split_and!; [apply dom_list_to_map_L|done|lia].
Qed.

Lemma items_effect_list_to_map (kept : list (K * V)) :
  NoDup kept.*1 → items_effect (list_to_map kept) kept.*1 = Returned (reverse kept).
Proof.
  intros Hnd. unfold items_effect.
  assert (mapM (λ k, pair k <$> (list_to_map kept : gmap K V) !! k) kept.*1 = Some kept)
    as ->; [|done].
  apply mapM_Some. apply Forall2_fmap_l, Forall_Forall2_diag, Forall_forall.
  intros [k v] Hkv. cbn. by rewrite (elem_of_list_to_map_1 _ _ _ Hnd Hkv).
Qed.

Lemma setitem_effect_fresh (c : nat) (kept : list (K * V)) key v :
  0 < c → length kept ≤ c → NoDup (kept.*1 ++ [key]) →
  setitem_effect (VInt (Z.of_nat c)) (list_to_map kept) kept.*1 key v =
  (Returned tt,
   (list_to_map (drop (S (length kept) - c) (kept ++ [(key, v)])),
    (drop (S (length kept) - c) (kept ++ [(key, v)])).*1)).
Proof.
  intros Hc Hlen Hnd. apply NoDup_app in Hnd as (Hnd & Hnin & _).
  assert (key ∉ kept.*1) as Hk by (intros Hin; apply (Hnin _ Hin); left).
  destruct (inv_list_to_map (Z.of_nat c) kept Hnd ltac:(lia)) as [Hinv Hsz].
  assert ((list_to_map kept : gmap K V) !! key = None) as Hnone.
  { by apply not_elem_of_list_to_map_1. }
  destruct (decide (length kept = c)) as [Hfull|Hroom].
  - destruct (setitem_effect_full _ _ _ key v Hinv ltac:(lia) Hnone ltac:(lia))
      as (lru & rest & Eks & _ & ->).
    replace (S (length kept) - c) with 1 by lia.
    destruct kept as [|[k0 v0] kept']; [done|]. cbn in Eks. simplify_eq.
    cbn [app drop]. rewrite drop_0. f_equal. f_equal; [|by rewrite fmap_app].
    cbn [list_to_map foldr] in *. cbn in Hnd. apply NoDup_cons in Hnd as [Hk0 Hnd'].
    rewrite delete_insert_id by by apply not_elem_of_list_to_map_1.
    rewrite list_to_map_snoc; [done|]. intros Hin. apply Hk. by right.
  - replace (S (length kept) - c) with 0 by lia. rewrite drop_0.
    rewrite setitem_effect_room; [|done|intros [=]; lia].
    by rewrite list_to_map_snoc, fmap_app.
Qed.

Lemma kept_snoc (c : nat) (l : list (K * V)) kv :
  0 < c →
  drop (S (length (drop (length l - c) l)) - c) (drop (length l - c) l ++ [kv]) =
  drop (length (l ++ [kv]) - c) (l ++ [kv]).
Proof.
  intros Hc. rewrite length_app, length_drop. cbn [length].
  destruct (decide (length l < c)) as [Hlt|Hge].
  - replace (length l - c) with 0 by lia. rewrite drop_0.
    replace (S (length l - 0) - c) with 0 by lia.
    by replace (length l + 1 - c) with 0 by lia.
  - replace (S (length l - (length l - c)) - c) with 1 by lia.
    rewrite !drop_app_le by (rewrite ?length_drop; lia).
    rewrite drop_drop. do 2 f_equal. lia.
Qed.

(** X11. A cache fed more distinct keys than it can hold keeps exactly the
    last [capacity] of them: after [self[k] = v] for each pair of a list
    without repeated keys, on an empty cache, [items()] is the end of the
    list, most recent first. *)
Theorem distinct_inserts_keep_last h self (c : nat) r (kvs : list (K * V)) :
  cache_at h self (VInt (Z.of_nat c)) r ∅ [] → 0 < c → NoDup kvs.*1 →
  ∃ h',
    run_calls ((λ kv, CallSetitem self kv.1 kv.2) <$> kvs) h = Some h' ∧
    view h' self =
      Some (VInt (Z.of_nat c), list_to_map (drop (length kvs - c) kvs),
            (drop (length kvs - c) kvs).*1) ∧
    run (items self) h' = Some (Returned (reverse (drop (length kvs - c) kvs)), h').
Proof.
  intros Hc Hpos Hnd.
  assert (run_calls ((λ kv, CallSetitem self kv.1 kv.2) <$> kvs) h =
          Some (put r (list_to_map (drop (length kvs - c) kvs))
                      (drop (length kvs - c) kvs).*1 h)) as Hrun.
  { induction kvs as [|[k v] l IH] using rev_ind.
    - rewrite drop_nil. cbn [fmap list_fmap run_calls]. f_equal. symmetry.
      exact (put_same _ _ _ _ _ _ Hc).
    - rewrite fmap_app in Hnd. cbn in Hnd.
      rewrite fmap_app, run_calls_app, IH by by apply NoDup_app in Hnd as (? & _).
      cbn [fmap list_fmap mbind option_bind run_calls do_call fst snd].
      set (kept := drop (length l - c) l).
      pose proof (cache_at_put _ _ _ _ _ _ (list_to_map kept) kept.*1 Hc) as Hc'.
      rewrite (run_setitem _ _ _ _ _ _ _ _ Hc').
      assert (NoDup (kept.*1 ++ [k])) as Hnd'.
      { refine (sublist_NoDup _ (l.*1 ++ [k]) Hnd _). apply sublist_app; [|done].
        unfold kept. rewrite fmap_drop. apply sublist_drop. }
      rewrite (setitem_effect_fresh c kept k v Hpos) by
        (done || (unfold kept; rewrite length_drop; lia)).
      cbn [fst snd]. rewrite put_put. unfold kept. by rewrite (kept_snoc c l (k, v) Hpos). }
  eexists. split; [exact Hrun|].
  pose proof (cache_at_put _ _ _ _ _ _ (list_to_map (drop (length kvs - c) kvs))
                (drop (length kvs - c) kvs).*1 Hc) as Hc'.
  split; [by apply view_cache_at with r|].
  rewrite (read_items _ _ _ _ _ _ Hc'), items_effect_list_to_map; [done|].
  refine (sublist_NoDup _ kvs.*1 Hnd _). rewrite fmap_drop. apply sublist_drop.
Qed.
Lemma run_setdefault h self c r m ks key default :
  cache_at h self c r m ks →
  run (setdefault self key default) h =
  Some ((setdefault_effect c m ks key default).1,
        put r (setdefault_effect c m ks key default).2.1
              (setdefault_effect c m ks key default).2.2 h).
Proof.
  intros Hc. eapply on_cache; [done|].
  apply (run_setdefault_cur _ _ _ _ (at_obj _ _ _ _ _ _ Hc)).
Qed.

(** X26. The first default wins: on a cache of positive capacity that
    satisfies the invariants, [setdefault(key, d1)] for an absent key
    returns [d1], and after it [setdefault(key, d2)] and [self[key]] return
    [d1] and change nothing. *)
Theorem setdefault_first_wins h self cap r m ks key d1 d2 :
  cache_at h self (VInt cap) r m ks → inv cap m ks → (0 < cap)%Z → m !! key = None →
  ∃ h1,
    run (setdefault self key d1) h = Some (Returned d1, h1) ∧
    run (setdefault self key d2) h1 = Some (Returned d1, h1) ∧
    run (__getitem__ self key) h1 = Some (Returned d1, h1).
Proof.
  intros Hc Hinv Hpos Hk.
  destruct (setitem_effect_shape _ _ _ key d1 Hinv Hpos) as (m0 & ks0 & E & Hinv').
  pose proof (cache_at_put _ _ _ _ _ _ (<[key:=d1]> m0) (ks0 ++ [key]) Hc) as Hc'.
  assert ((<[key:=d1]> m0 : gmap K V) !! key = Some d1) as Hk' by apply lookup_insert_eq.
  assert (last (ks0 ++ [key]) = Some key) as Hl by apply last_snoc.
  pose proof (getitem_effect_last _ _ _ d1 Hk' Hl) as Eg.
  exists (put r (<[key:=d1]> m0) (ks0 ++ [key]) h). split_and!.
  - rewrite (run_setdefault _ _ _ _ _ _ _ _ Hc), (setdefault_effect_absent _ _ _ _ _ Hk), E.
    done.
  - rewrite (run_setdefault _ _ _ _ _ _ _ _ Hc'). unfold setdefault_effect. rewrite Eg.
    cbn [fst snd]. by rewrite (put_same _ _ _ _ _ _ Hc').
  - rewrite (run_getitem _ _ _ _ _ _ _ Hc'), Eg. cbn [fst snd].
    by rewrite (put_same _ _ _ _ _ _ Hc').
Qed.
End more_cache.

(** ** The further properties on concrete caches *)

(** A cache built with capacity -1, and a cache whose store holds ["a"] and
    ["b"] while its queue has lost ["a"]. *)
Definition demo_negative : @heap string Z _ _ := alloc (VInt (-1)) ∅ [] empty_heap.
Definition demo_orphan : @heap string Z _ _ :=
  mkHeap {[1%positive := instance_of (VInt 2) demo_refs]}
         {[1%positive := demo_store]}
         {[1%positive := ["b"]]}
         {[1%positive := false]}.

Lemma demo_new_cache_at :
  cache_at demo_new 1%positive (VInt 2) demo_refs (∅ : gmap string Z) [].
Proof. split; reflexivity. Qed.

Lemma demo_negative_cache_at :
  cache_at demo_negative 1%positive (VInt (-1)) demo_refs
           (∅ : gmap string Z) [].
Proof. split; reflexivity. Qed.

Lemma demo_orphan_cache_at :
  cache_at demo_orphan 1%positive (VInt 2) demo_refs demo_store ["b"].
Proof. split; reflexivity. Qed.

(** X1 at [c["c"] = 3] on the cache whose queue is [a, b]. *)
Lemma setitem_then_getitem_witness :
  cache_at demo_heap 1%positive (VInt 2) demo_refs demo_store ["a"; "b"] ∧
  inv 2 demo_store ["a"; "b"] ∧ (0 < 2)%Z ∧
  ∃ h1 its,
    run (__setitem__ 1%positive "c" 3%Z) demo_heap = Some (Returned tt, h1) ∧
    run (__getitem__ 1%positive "c") h1 = Some (Returned 3%Z, h1) ∧
    run (__contains__ 1%positive "c") h1 = Some (Returned true, h1) ∧
    run (items 1%positive) h1 = Some (Returned (("c", 3%Z) :: its), h1).
Proof.
  split; [exact demo_cache_at|]. split; [exact demo_inv|]. split; [lia|].
  exact (setitem_then_getitem demo_heap 1%positive 2 demo_refs demo_store ["a"; "b"]
           "c" 3%Z demo_cache_at demo_inv ltac:(lia)).
Defined.

(** X2: ["a"] is read, then ["c"] is set on the full cache. *)
Lemma read_key_survives_insert_witness :
  cache_at demo_heap 1%positive (VInt 2) demo_refs demo_store ["a"; "b"] ∧
  inv 2 demo_store ["a"; "b"] ∧ (2 ≤ 2)%Z ∧ demo_store !! "a" = Some 1%Z ∧ "c" ≠ "a" ∧
  ∃ h1 h2 h3,
    run (__getitem__ 1%positive "a") demo_heap = Some (Returned 1%Z, h1) ∧
    run (__setitem__ 1%positive "c" 3%Z) h1 = Some (Returned tt, h2) ∧
    run (__contains__ 1%positive "a") h2 = Some (Returned true, h2) ∧
    run (__getitem__ 1%positive "a") h2 = Some (Returned 1%Z, h3).
Proof.
  split; [exact demo_cache_at|]. split; [exact demo_inv|]. split; [lia|].
  split; [reflexivity|]. split; [discriminate|].
  exact (read_key_survives_insert demo_heap 1%positive 2 demo_refs demo_store ["a"; "b"]
           "a" 1%Z "c" 3%Z demo_cache_at demo_inv ltac:(lia) eq_refl ltac:(discriminate)).
Defined.

(** X3 at the key ["a"]. *)
Lemma getitem_twice_witness :
  cache_at demo_heap 1%positive (VInt 2) demo_refs demo_store ["a"; "b"] ∧
  inv 2 demo_store ["a"; "b"] ∧ demo_store !! "a" = Some 1%Z ∧
  ∃ h1,
    run (__getitem__ 1%positive "a") demo_heap = Some (Returned 1%Z, h1) ∧
    run (__getitem__ 1%positive "a") h1 = Some (Returned 1%Z, h1).
Proof.
  split; [exact demo_cache_at|]. split; [exact demo_inv|]. split; [reflexivity|].
  exact (getitem_twice demo_heap 1%positive 2 demo_refs demo_store ["a"; "b"] "a" 1%Z
           demo_cache_at demo_inv eq_refl).
Defined.

(** X4 on the new cache of capacity 2. *)
Lemma setitem_then_delitem_witness :
  cache_at demo_new 1%positive (VInt 2) demo_refs (∅ : gmap string Z) [] ∧
  inv 2 (∅ : gmap string Z) [] ∧ (∅ : gmap string Z) !! "a" = None ∧
  (Z.of_nat (size (∅ : gmap string Z)) < 2)%Z ∧
  ∃ h1,
    run (__setitem__ 1%positive "a" 1%Z) demo_new = Some (Returned tt, h1) ∧
    run (__delitem__ 1%positive "a") h1 = Some (Returned tt, demo_new).
Proof.
  split; [exact demo_new_cache_at|]. split; [apply inv_empty; lia|].
  split; [reflexivity|]. split; [vm_compute; reflexivity|].
  exact (setitem_then_delitem demo_new 1%positive 2 demo_refs ∅ [] "a" 1%Z
           demo_new_cache_at (inv_empty 2 ltac:(lia)) eq_refl ltac:(vm_compute; reflexivity)).
Defined.

(** X5 on the cache whose queue is [a, b]. *)
Lemma clear_empties_witness :
  cache_at demo_heap 1%positive (VInt 2) demo_refs demo_store ["a"; "b"] ∧
  ∃ h1,
    run (clear 1%positive) demo_heap = Some (Returned tt, h1) ∧
    view h1 1%positive = Some (VInt 2, ∅, []) ∧
    run (__len__ 1%positive) h1 = Some (Returned 0, h1) ∧
    run (items 1%positive) h1 = Some (Returned [], h1) ∧
    run (keys 1%positive) h1 = Some (Returned [], h1) ∧
    ∀ key,
      run (__contains__ 1%positive key) h1 = Some (Returned false, h1) ∧
      run (__getitem__ 1%positive key) h1 = Some (Raised KeyError, h1).
Proof.
  split; [exact demo_cache_at|].
  exact (clear_empties demo_heap 1%positive (VInt 2) demo_refs demo_store ["a"; "b"]
           demo_cache_at).
Defined.

(** X6 on the cache of capacity -1. *)
Lemma negative_capacity_never_evicts_witness :
  cache_at demo_negative 1%positive (VInt (-1)) demo_refs
           (∅ : gmap string Z) [] ∧
  inv_keys (∅ : gmap string Z) [] ∧ (-1 < 0)%Z ∧
  ∃ ks',
    run (__setitem__ 1%positive "a" 1%Z) demo_negative =
      Some (Returned tt, put demo_refs (<["a":=1%Z]> ∅) ks' demo_negative) ∧
    inv_keys (<["a":=1%Z]> (∅ : gmap string Z)) ks' ∧ last ks' = Some "a".
Proof.
  assert (inv_keys (∅ : gmap string Z) []) as Hik.
  { split; [vm_compute; reflexivity|constructor]. }
  split; [exact demo_negative_cache_at|]. split; [exact Hik|]. split; [lia|].
  exact (negative_capacity_never_evicts demo_negative 1%positive (-1)
           demo_refs ∅ [] "a" 1%Z demo_negative_cache_at Hik ltac:(lia)).
Defined.

(** X8 on the cache whose queue is [a, b]. *)
Lemma readers_agree_witness :
  cache_at demo_heap 1%positive (VInt 2) demo_refs demo_store ["a"; "b"] ∧
  inv 2 demo_store ["a"; "b"] ∧
  ∃ its,
    run (items 1%positive) demo_heap = Some (Returned its, demo_heap) ∧
    run (keys 1%positive) demo_heap = Some (Returned its.*1, demo_heap) ∧
    run (values 1%positive) demo_heap = Some (Returned its.*2, demo_heap) ∧
    run (__len__ 1%positive) demo_heap = Some (Returned (length its), demo_heap) ∧
    NoDup its.*1 ∧
    (∀ key, run (__contains__ 1%positive key) demo_heap =
            Some (Returned (bool_decide (key ∈ its.*1)), demo_heap)) ∧
    (∀ k v, (k, v) ∈ its →
       ∃ h', run (__getitem__ 1%positive k) demo_heap = Some (Returned v, h')).
Proof.
  split; [exact demo_cache_at|]. split; [exact demo_inv|].
  exact (readers_agree demo_heap 1%positive (VInt 2) 2 demo_refs demo_store ["a"; "b"]
           demo_cache_at demo_inv).
Defined.

(** X9 on the cache whose queue is [a, b], with its lock held. *)
Lemma held_lock_blocks_witness :
  cache_at demo_heap 1%positive (VInt 2) demo_refs demo_store ["a"; "b"] ∧
  run (__getitem__ 1%positive "a") (held demo_refs demo_heap) = None ∧
  run (__len__ 1%positive) (held demo_refs demo_heap) =
    Some (Returned (size demo_store), held demo_refs demo_heap).
Proof.
  split; [exact demo_cache_at|].
  destruct (held_lock_blocks demo_heap 1%positive (VInt 2) demo_refs demo_store
              ["a"; "b"] "a" 0%Z demo_cache_at)
    as (H1 & _ & _ & _ & _ & _ & _ & _ & H2 & _).
  split; [exact H1|exact H2].
Defined.

(** X10 on the cache whose queue has lost ["a"]. *)
Lemma queue_miss_tolerated_witness :
  cache_at demo_orphan 1%positive (VInt 2) demo_refs demo_store ["b"] ∧
  demo_store !! "a" = Some 1%Z ∧ "a" ∉ ["b"] ∧ ["b"] ≠ [] ∧
  run (__getitem__ 1%positive "a") demo_orphan =
    Some (Returned 1%Z, put demo_refs demo_store (["b"] ++ ["a"]) demo_orphan) ∧
  run (__delitem__ 1%positive "a") demo_orphan =
    Some (Returned tt, put demo_refs (delete "a" demo_store) ["b"] demo_orphan) ∧
  run (__setitem__ 1%positive "a" 7%Z) demo_orphan = Some (Raised ValueError, demo_orphan).
Proof.
  assert ("a" ∉ ["b"]) as Hnin by (intros Hin%list_elem_of_singleton; discriminate).
  split; [exact demo_orphan_cache_at|]. split; [reflexivity|]. split; [exact Hnin|].
  split; [discriminate|].
  exact (queue_miss_tolerated demo_orphan 1%positive (VInt 2) demo_refs demo_store ["b"]
           "a" 1%Z 7%Z demo_orphan_cache_at eq_refl Hnin ltac:(discriminate)).
Defined.

(** X11: three distinct keys into the new cache of capacity 2. *)
Lemma distinct_inserts_keep_last_witness :
  cache_at demo_new 1%positive (VInt (Z.of_nat 2)) demo_refs (∅ : gmap string Z) [] ∧
  0 < 2 ∧ NoDup [("a", 1%Z); ("b", 2%Z); ("c", 3%Z)].*1 ∧
  ∃ h',
    run_calls [CallSetitem 1%positive "a" 1%Z; CallSetitem 1%positive "b" 2%Z;
               CallSetitem 1%positive "c" 3%Z] demo_new = Some h' ∧
    run (items 1%positive) h' = Some (Returned [("c", 3%Z); ("b", 2%Z)], h').
Proof.
  assert (NoDup [("a", 1%Z); ("b", 2%Z); ("c", 3%Z)].*1) as Hnd.
  { repeat (constructor; [set_solver|]). constructor. }
  split; [exact demo_new_cache_at|]. split; [lia|]. split; [exact Hnd|].
  destruct (distinct_inserts_keep_last demo_new 1%positive 2 demo_refs
              [("a", 1%Z); ("b", 2%Z); ("c", 3%Z)] demo_new_cache_at ltac:(lia) Hnd)
    as (h' & Hrun & _ & Hitems).
  exists h'. split; [exact Hrun|exact Hitems].
Defined.

(** X26 on the new cache of capacity 2. *)
Lemma setdefault_first_wins_witness :
  cache_at demo_new 1%positive (VInt 2) demo_refs (∅ : gmap string Z) [] ∧
  inv 2 (∅ : gmap string Z) [] ∧ (0 < 2)%Z ∧ (∅ : gmap string Z) !! "k" = None ∧
  ∃ h1,
    run (setdefault 1%positive "k" 1%Z) demo_new = Some (Returned 1%Z, h1) ∧
    run (setdefault 1%positive "k" 2%Z) h1 = Some (Returned 1%Z, h1) ∧
    run (__getitem__ 1%positive "k") h1 = Some (Returned 1%Z, h1).
Proof.
  split; [exact demo_new_cache_at|]. split; [apply inv_empty; lia|]. split; [lia|].
  split; [reflexivity|].
  exact (setdefault_first_wins demo_new 1%positive 2 demo_refs ∅ [] "k" 1%Z 2%Z
           demo_new_cache_at (inv_empty 2 ltac:(lia)) ltac:(lia) eq_refl).
Defined.

(** * Strings *)

Lemma string_app_nil_l (s : string) : "" +:+ s = s.
Proof. reflexivity. Qed.

Lemma string_app_cons (c : Ascii.ascii) (s t : string) :
  String c s +:+ t = String c (s +:+ t).
Proof. reflexivity. Qed.

Lemma string_app_nil_r (s : string) : s +:+ "" = s.
Proof. induction s as [|c s IH]; [done|]. by rewrite string_app_cons, IH. Qed.

Lemma string_app_assoc (s1 s2 s3 : string) : (s1 +:+ s2) +:+ s3 = s1 +:+ (s2 +:+ s3).
Proof. induction s1 as [|c s1 IH]; [done|]. by rewrite !string_app_cons, IH. Qed.

(** * jinja2.utils.Cycler (lines 649-700) *)

Module Cycler.
Section cycler.
Context {A : Type}.

(** The attributes of an instance: the tuple [items] and the integer
    [pos]. *)
Record t := mk { items : list A; pos : Z }.

(** [tup[i]] on a tuple: a negative index counts from the end, an index out
    of range raises [IndexError]. *)
Definition tuple_getitem (tup : list A) (i : Z) : outcome A :=
  let n := Z.of_nat (length tup) in
  let j := if (i <? 0)%Z then (i + n)%Z else i in
  if ((0 <=? j)%Z && (j <? n)%Z)
  then from_option Returned (Raised IndexError) (tup !! Z.to_nat j)
  else Raised IndexError.

(** [__init__] (lines 675-679). *)
Definition __init__ (its : list A) : outcome t :=
  match its with
  | [] => Raised RuntimeError
  | _ => Returned (mk its 0)
  end.

(** [reset] (lines 681-683). *)
Definition reset (self : t) : t := mk (items self) 0.

(** The property [current] (lines 685-690). *)
Definition current (self : t) : outcome A := tuple_getitem (items self) (pos self).

(** [next] (lines 692-698): the outcome and the instance afterwards. *)
Definition next (self : t) : outcome A * t :=
  match current self with
  | Returned rv =>
      (Returned rv, mk (items self) ((pos self + 1) `mod` Z.of_nat (length (items self))))
  | Raised e => (Raised e, self)
  end.

(** [n] calls of [next] one after the other, up to the first that raises. *)
Fixpoint nexts (n : nat) (self : t) : outcome (list A) * t :=
  match n with
  | O => (Returned [], self)
  | S n' =>
      match next self with
      | (Returned x, self') =>
          match nexts n' self' with
          | (Returned xs, self'') => (Returned (x :: xs), self'')
          | (Raised e, self'') => (Raised e, self'')
          end
      | (Raised e, self') => (Raised e, self')
      end
  end.

Lemma tuple_getitem_in (tup : list A) (p : nat) x :
  tup !! p = Some x → tuple_getitem tup (Z.of_nat p) = Returned x.
Proof.
  intros Hx. pose proof (lookup_lt_Some _ _ _ Hx) as Hlt. unfold tuple_getitem. cbn zeta.
  destruct (Z.ltb_spec (Z.of_nat p) 0) as [?|_]; [lia|].
  destruct (Z.leb_spec 0 (Z.of_nat p)) as [_|?]; [|lia].
  destruct (Z.ltb_spec (Z.of_nat p) (Z.of_nat (length tup))) as [_|?]; [|lia].
  cbn. by rewrite Nat2Z.id, Hx.
Qed.

Lemma next_in its (p : nat) x :
  its !! p = Some x →
  next (mk its (Z.of_nat p)) = (Returned x, mk its (Z.of_nat (S p mod length its))).
Proof.
  intros Hx. unfold next, current. cbn [items pos]. rewrite (tuple_getitem_in _ _ _ Hx).
  do 2 f_equal. pose proof (lookup_lt_Some _ _ _ Hx).
  rewrite Nat2Z.inj_mod. f_equal. lia.
Qed.

Lemma nexts_in its (n p : nat) :
  p < length its →
  ∃ xs, nexts n (mk its (Z.of_nat p)) =
          (Returned xs, mk its (Z.of_nat ((p + n) mod length its))) ∧
        length xs = n ∧
        ∀ k, k < n → xs !! k = its !! ((p + k) mod length its).
Proof.
  revert p. induction n as [|n IH]; intros p Hp.
  - exists []. rewrite Nat.add_0_r, Nat.mod_small by done. split_and!; [done..|]. lia.
  - destruct (lookup_lt_is_Some_2 its p Hp) as [x Hx].
    assert (S p mod length its < length its) as Hp' by (apply Nat.mod_upper_bound; lia).
    destruct (IH _ Hp') as (xs & E & Hlen & Hxs).
    exists (x :: xs). cbn [nexts]. rewrite (next_in _ _ _ Hx), E. split_and!.
    + do 3 f_equal. rewrite Nat.Div0.add_mod_idemp_l. f_equal. lia.
    + cbn. by rewrite Hlen.
    + intros [|k] Hk.
      * cbn. by rewrite Nat.add_0_r, Nat.mod_small.
      * cbn. rewrite Hxs by lia. rewrite Nat.Div0.add_mod_idemp_l. do 2 f_equal. lia.
Qed.

(** X12. [Cycler()] without items raises [RuntimeError]; a cycler built
    from at least one item never fails: the [k]-th value of any run of
    [next] calls is item [k mod len], the position ends at [n mod len], and
    [reset] then gives back the cycler as it was built. *)
Theorem next_cycles (its : list A) (n : nat) :
  match __init__ its with
  | Raised e => e = RuntimeError ∧ its = []
  | Returned c =>
      its ≠ [] ∧
      ∃ xs self,
        nexts n c = (Returned xs, self) ∧
        length xs = n ∧
        (∀ k, k < n → xs !! k = its !! (k mod length its)) ∧
        pos self = Z.of_nat (n mod length its) ∧
        reset self = c
  end.
Proof.
  destruct its as [|x its]; [done|]. cbn [__init__]. set (l := x :: its).
  split; [done|]. assert (0 < length l) as Hlen by (cbn; lia).
  destruct (nexts_in l n 0 Hlen) as (xs & E & Hl & Hxs).
  by exists xs, (mk l (Z.of_nat (n mod length l))).
Qed.

(** X13. One full round: from any position [p] inside the tuple,
    [len(items)] calls of [next] return the items from [p] on followed by
    those before [p], and leave the cycler exactly where it was. *)
Theorem full_round (its : list A) (p : nat) :
  p < length its →
  nexts (length its) (mk its (Z.of_nat p)) =
    (Returned (drop p its ++ take p its), mk its (Z.of_nat p)).
Proof.
  intros Hp. destruct (nexts_in its (length its) p Hp) as (xs & E & Hl & Hxs).
  rewrite E. f_equal.
  - f_equal. apply list_eq_same_length with (length its); [|done|].
    { rewrite length_app, length_drop, length_take. lia. }
    intros k x y Hk Hx Hy. rewrite Hxs in Hx by done.
    destruct (decide (p + k < length its)) as [Hlt|Hge].
    + rewrite Nat.mod_small in Hx by done.
      rewrite lookup_app_l in Hy by (rewrite length_drop; lia).
      rewrite lookup_drop in Hy. congruence.
    + rewrite lookup_app_r in Hy by (rewrite length_drop; lia).
      rewrite length_drop in Hy. rewrite lookup_take_lt in Hy by lia.
      replace ((p + k) mod length its) with (k - (length its - p)) in Hx; [congruence|].
      apply Nat.mod_unique with 1; lia.
  - do 2 f_equal. rewrite <- Nat.Div0.add_mod_idemp_r, Nat.Div0.mod_same, Nat.add_0_r.
    by apply Nat.mod_small.
Qed.

(** X14. [next] either returns an item and leaves [pos] inside the tuple,
    whatever [pos] was before, or raises [IndexError] and changes nothing;
    it raises exactly when [pos] is outside [-len, len). *)
Theorem next_normalises (self : t) :
  let n := Z.of_nat (length (items self)) in
  match next self with
  | (Returned x, self') =>
      (- n ≤ pos self < n)%Z ∧ items self' = items self ∧ (0 ≤ pos self' < n)%Z ∧
      x ∈ items self
  | (Raised e, self') =>
      e = IndexError ∧ self' = self ∧ ¬ (- n ≤ pos self < n)%Z
  end.
Proof.
  destruct self as [its p]. unfold next, current, tuple_getitem. cbn [items pos].
  set (n := Z.of_nat (length its)).
  set (j := if (p <? 0)%Z then (p + n)%Z else p).
  assert ((p < 0 → j = p + n) ∧ (0 ≤ p → j = p))%Z as [Hj1 Hj2].
  { subst j. destruct (Z.ltb_spec p 0); split; intros; lia. }
  clearbody j.
  destruct (decide (- n ≤ p < n)%Z) as [Hin|Hout].
  - assert (0 ≤ j < n)%Z as Hj by lia.
    rewrite (proj2 (Z.leb_le 0 j)), (proj2 (Z.ltb_lt j n)) by lia. cbn [andb].
    destruct (lookup_lt_is_Some_2 its (Z.to_nat j) ltac:(lia)) as [x Hx]. rewrite Hx.
    cbn [from_option items pos]. split_and!; [lia|lia|done| | |by eapply list_elem_of_lookup_2].
    all: apply Z.mod_pos_bound; lia.
  - assert ((0 <=? j)%Z && (j <? n)%Z = false) as ->; [|done].
    apply andb_false_iff. destruct (Z.leb_spec 0 j); [right|by left].
    apply Z.ltb_ge. lia.
Qed.
End cycler.

(** X13 on the items a, b, c from position 1. *)
Lemma full_round_witness :
  1 < length ["a"; "b"; "c"] ∧
  nexts 3 (mk ["a"; "b"; "c"] 1) = (Returned ["b"; "c"; "a"], mk ["a"; "b"; "c"] 1).
Proof. split; [cbn; lia|]. exact (full_round ["a"; "b"; "c"] 1 ltac:(cbn; lia)). Defined.
End Cycler.

(** * jinja2.utils.Joiner (lines 703-714) *)

Module Joiner.

(** The attributes of an instance. *)
Record t := mk { sep : string; used : bool }.

(** [__init__] (lines 706-708); [None] stands for a call without [sep]. *)
Definition __init__ (sep : option string) : t := mk (default ", " sep) false.

(** [__call__] (lines 710-714): the string returned and the instance
    afterwards. *)
Definition __call__ (self : t) : string * t :=
  if negb (used self) then ("", mk (sep self) true) else (sep self, self).

(** [n] calls one after the other. *)
Fixpoint calls (n : nat) (self : t) : list string * t :=
  match n with
  | O => ([], self)
  | S n' =>
      let '(s, self') := __call__ self in
      let '(ss, self'') := calls n' self' in
      (s :: ss, self'')
  end.

Lemma calls_used (n : nat) (s : string) :
  calls n (mk s true) = (replicate n s, mk s true).
Proof. induction n as [|n IH]; [done|]. cbn. by rewrite IH. Qed.

Lemma concat_empty_cons (x : string) (l : list string) :
  String.concat "" (x :: l) = x +:+ String.concat "" l.
Proof. destruct l; cbn [String.concat]; [by rewrite string_app_nil_r|done]. Qed.

Lemma concat_prefixed (s x : string) (xs : list string) :
  x +:+ String.concat "" (zip_with String.append (replicate (length xs) s) xs)
  = String.concat s (x :: xs).
Proof.
  revert x. induction xs as [|y ys IH]; intros x.
  - cbn. apply string_app_nil_r.
  - cbn [length replicate zip_with]. rewrite concat_empty_cons, string_app_assoc, IH. done.
Qed.

(** X15. The first call of a joiner returns the empty string and every
    later call the separator; so writing [j()] in front of each element of
    a list joins the list with the separator. *)
Theorem joiner_joins (s : option string) (xs : list string) :
  (calls (S (length xs)) (__init__ s)).1 =
    "" :: replicate (length xs) (default ", " s) ∧
  String.concat "" (zip_with String.append (calls (length xs) (__init__ s)).1 xs)
  = String.concat (default ", " s) xs.
Proof.
  split.
  - cbn. by rewrite calls_used.
  - destruct xs as [|x xs]; [done|].
    cbn [length calls __init__ __call__ used negb sep]. rewrite calls_used.
    cbn [fst zip_with]. rewrite concat_empty_cons. apply concat_prefixed.
Qed.
End Joiner.

(** * jinja2.utils.Namespace (lines 717-738) *)

Module Namespace.
Section namespace.
Context {V : Type}.

(** The one attribute of an instance: the dict [__attrs], with its keys
    taken to be strings, as attribute names are. *)
Record t := mk { attrs : gmap string V }.

(** What an attribute access can give: a stored value, the dict of the
    instance, or its class. *)
Inductive attribute :=
| Stored (v : V)
| Attrs (d : gmap string V)
| Class.

(** [dict(pairs)]: a later pair replaces an earlier one with the same
    key. *)
Definition dict_of_pairs (pairs : list (string * V)) : gmap string V :=
  foldl (λ d kv, <[kv.1 := kv.2]> d) ∅ pairs.

(** [dict] called with the positional and the keyword arguments: at most
    one positional argument, a mapping or an iterable of pairs, and then the
    keyword arguments on top. *)
Definition dict_ (args : list (list (string * V))) (kwargs : gmap string V)
    : outcome (gmap string V) :=
  match args with
  | [] => Returned kwargs
  | [pairs] => Returned (kwargs ∪ dict_of_pairs pairs)
  | _ => Raised TypeError
  end.

(** [__init__] (lines 721-723); [args] are the positional arguments after
    [self]. *)
Definition __init__ (args : list (list (string * V))) (kwargs : gmap string V)
    : outcome t :=
  match dict_ args kwargs with
  | Returned d => Returned (mk d)
  | Raised e => Raised e
  end.

(** [object.__getattribute__] on an instance, whose only attribute is the
    name-mangled [__attrs]. *)
Definition object_getattribute (self : t) (name : string) : outcome attribute :=
  if decide (name = "_Namespace__attrs") then Returned (Attrs (attrs self))
  else if decide (name = "__class__") then Returned Class
  else Raised AttributeError.

(** [__getattribute__] (lines 725-732). *)
Definition __getattribute__ (self : t) (name : string) : outcome attribute :=
  if decide (name ∈ ["_Namespace__attrs"; "__class__"])
  then object_getattribute self name
  else
    match object_getattribute self "_Namespace__attrs" with
    | Returned (Attrs d) =>
        match d !! name with
        | Some v => Returned (Stored v)
        | None => Raised AttributeError
        end
    | Returned _ => Raised TypeError
    | Raised e => Raised e
    end.

(** [__setitem__] (lines 734-735). *)
Definition __setitem__ (self : t) (name : string) (value : V) : t :=
  mk (<[name := value]> (attrs self)).

Lemma getattribute_plain (self : t) (name : string) :
  name ∉ ["_Namespace__attrs"; "__class__"] →
  __getattribute__ self name =
  match attrs self !! name with
  | Some v => Returned (Stored v)
  | None => Raised AttributeError
  end.
Proof.
  intros Hn. unfold __getattribute__, object_getattribute.
  by rewrite decide_False, decide_True.
Qed.

Lemma dict_of_pairs_snoc pairs kv :
  dict_of_pairs (pairs ++ [kv]) = <[kv.1 := kv.2]> (dict_of_pairs pairs).
Proof. unfold dict_of_pairs. by rewrite foldl_app. Qed.

Lemma dict_of_pairs_lookup pairs name :
  dict_of_pairs pairs !! name = snd <$> last (filter (λ kv, kv.1 = name) pairs).
Proof.
  induction pairs as [|kv pairs IH] using rev_ind; [done|].
  rewrite dict_of_pairs_snoc, filter_app, filter_cons, filter_nil.
  destruct (decide (kv.1 = name)) as [<-|Hne].
  - by rewrite lookup_insert_eq, last_snoc.
  - by rewrite lookup_insert_ne, app_nil_r.
Qed.

(** X16. What [ns[name] = value] stores is what [ns.name] reads, for
    every name but the two reserved ones, and no other name is affected. *)
Theorem setitem_getattribute (self : t) (name : string) (value : V) :
  name ∉ ["_Namespace__attrs"; "__class__"] →
  __getattribute__ (__setitem__ self name value) name = Returned (Stored value) ∧
  ∀ name', name' ≠ name → name' ∉ ["_Namespace__attrs"; "__class__"] →
    __getattribute__ (__setitem__ self name value) name' = __getattribute__ self name'.
Proof.
  intros Hn. split.
  - rewrite getattribute_plain by done. unfold __setitem__. cbn [attrs].
    by rewrite lookup_insert_eq.
  - intros name' Hne Hn'. rewrite !getattribute_plain by done.
    unfold __setitem__. cbn [attrs]. by rewrite lookup_insert_ne.
Qed.

(** X17. The two reserved names never read the dict: after
    [ns[name] = value] with [name] one of ["__class__"] and
    ["_Namespace__attrs"], the attribute [name] is still the class, or the
    dict itself (which now holds the new entry), and never [value]. *)
Theorem reserved_names_shadow (self : t) (name : string) (value : V) :
  name ∈ ["_Namespace__attrs"; "__class__"] →
  __getattribute__ (__setitem__ self name value) name =
    if decide (name = "__class__") then Returned Class
    else Returned (Attrs (<[name := value]> (attrs self))).
Proof.
  intros Hn. unfold __getattribute__, object_getattribute. rewrite decide_True by done.
  apply elem_of_cons in Hn as [->|Hn].
  - by rewrite decide_True, decide_False.
  - apply list_elem_of_singleton in Hn as ->. by rewrite decide_False, !decide_True.
Qed.

(** X18. [Namespace(pairs, **kwargs)]: a keyword argument wins over the
    positional argument, in the positional argument the last pair with a
    name wins, and a name given nowhere raises [AttributeError]; two or
    more positional arguments raise [TypeError]. *)
Theorem init_getattribute (args : list (list (string * V))) (kwargs : gmap string V) :
  match __init__ args kwargs with
  | Returned self =>
      length args ≤ 1 ∧
      ∀ name, name ∉ ["_Namespace__attrs"; "__class__"] →
        __getattribute__ self name =
        match kwargs !! name with
        | Some v => Returned (Stored v)
        | None =>
            match last (filter (λ kv, kv.1 = name) (concat args)) with
            | Some kv => Returned (Stored kv.2)
            | None => Raised AttributeError
            end
        end
  | Raised e => e = TypeError ∧ 2 ≤ length args
  end.
Proof.
  destruct args as [|pairs [|more args]]; cbn [__init__ dict_].
  - split; [cbn; lia|]. intros name Hn. rewrite getattribute_plain by done. cbn [attrs].
    by destruct (kwargs !! name).
  - split; [cbn; lia|]. intros name Hn. rewrite getattribute_plain by done.
    cbn [attrs concat]. rewrite lookup_union, dict_of_pairs_lookup, app_nil_r.
    destruct (kwargs !! name) as [v|]; destruct (last _); done.
  - split; [done|]. cbn. lia.
Qed.
End namespace.

(** X16 at [ns["x"] = 1]. *)
Lemma setitem_getattribute_witness :
  "x" ∉ ["_Namespace__attrs"; "__class__"] ∧
  __getattribute__ (__setitem__ (mk ∅) "x" 1%Z) "x" = Returned (Stored 1%Z).
Proof.
  assert ("x" ∉ ["_Namespace__attrs"; "__class__"]) as Hx by set_solver.
  split; [exact Hx|]. exact (proj1 (setitem_getattribute (mk ∅) "x" 1%Z Hx)).
Defined.

(** X17 at [ns["__class__"] = 1]. *)
Lemma reserved_names_shadow_witness :
  "__class__" ∈ ["_Namespace__attrs"; "__class__"] ∧
  __getattribute__ (__setitem__ (mk ∅) "__class__" 1%Z) "__class__" = Returned Class.
Proof.
  assert ("__class__" ∈ ["_Namespace__attrs"; "__class__"]) as Hx by set_solver.
  split; [exact Hx|]. exact (reserved_names_shadow (mk ∅) "__class__" 1%Z Hx).
Defined.
End Namespace.

(** * jinja2.utils.htmlsafe_json_dumps (lines 611-646) *)

Module HtmlSafe.
Import Stdlib.Strings.Ascii.

(** [s.replace(old, new)] of Python strings: the occurrences of [old] are
    replaced from the left and do not overlap; [skip] counts the characters
    of an occurrence still to be passed over. *)
Fixpoint replace_from (old new : string) (skip : nat) (s : string) : string :=
  match s with
  | EmptyString => EmptyString
  | String c s' =>
      match skip with
      | S k => replace_from old new k s'
      | O =>
          if String.prefix old s
          then new +:+ replace_from old new (String.length old - 1) s'
          else String c (replace_from old new 0 s')
      end
  end.

(** With an empty [old], [new] goes in front of every character and at the
    end. *)
Fixpoint interleave (new s : string) : string :=
  match s with
  | EmptyString => new
  | String c s' => new +:+ String c (interleave new s')
  end.

Definition replace (s old new : string) : string :=
  match old with
  | EmptyString => interleave new s
  | _ => replace_from old new 0 s
  end.

(** [markupsafe.Markup]: a string marked as safe to render. *)
Record Markup := mkMarkup { unwrap : string }.

Section dumps.
Context {Obj Kwargs : Type}.
(** [json.dumps], the serializer used when [dumps] is not given. *)
Variable json_dumps : Obj → Kwargs → outcome string.

Definition htmlsafe_json_dumps (obj : Obj) (dumps : option (Obj → Kwargs → outcome string))
    (kwargs : Kwargs) : outcome Markup :=
  let dumps := default json_dumps dumps in
  match dumps obj kwargs with
  | Returned s =>
      Returned (mkMarkup
        (replace (replace (replace (replace s "<" "\u003c") ">" "\u003e")
                   "&" "\u0026") "'" "\u0027"))
  | Raised e => Raised e
  end.
End dumps.

(** The four characters the docstring lists, and the escape of each. *)
Definition unsafe : list Ascii.ascii := ["<"; ">"; "&"; "'"]%char.

Definition escape_char (c : Ascii.ascii) : string :=
  if decide (c = "<"%char) then "\u003c"
  else if decide (c = ">"%char) then "\u003e"
  else if decide (c = "&"%char) then "\u0026"
  else if decide (c = "'"%char) then "\u0027"
  else String c "".

(** One pass over the string that escapes each character on its own. *)
Fixpoint escape (s : string) : string :=
  match s with
  | EmptyString => EmptyString
  | String c s' => escape_char c +:+ escape s'
  end.

(** ** Properties *)

Local Notation chars := String.list_ascii_of_string.

Lemma chars_app (s t : string) : chars (s +:+ t) = chars s ++ chars t.
Proof. induction s as [|c s IH]; [done|]. rewrite string_app_cons. cbn. by rewrite IH. Qed.

(** Replacing one character: every occurrence gives way to [new]. *)
Fixpoint subst1 (a : Ascii.ascii) (new s : string) : string :=
  match s with
  | EmptyString => EmptyString
  | String c s' => (if decide (c = a) then new else String c "") +:+ subst1 a new s'
  end.

Lemma replace_char (s : string) (a : Ascii.ascii) (new : string) :
  replace s (String a "") new = subst1 a new s.
Proof.
  unfold replace. induction s as [|c s IH]; [done|].
  cbn [replace_from subst1 String.prefix String.length Nat.sub].
  destruct (Ascii.ascii_dec a c) as [->|Hne].
  - rewrite decide_True by done. destruct s; by rewrite IH.
  - rewrite decide_False by done. by rewrite IH.
Qed.

Lemma subst1_app a new s t : subst1 a new (s +:+ t) = subst1 a new s +:+ subst1 a new t.
Proof.
  induction s as [|c s IH]; [done|]. rewrite string_app_cons. cbn [subst1].
  by rewrite IH, string_app_assoc.
Qed.

Lemma subst1_Forall (P : Ascii.ascii → Prop) a new s :
  Forall P (chars new) → Forall (λ c, c ≠ a → P c) (chars s) →
  Forall P (chars (subst1 a new s)).
Proof.
  intros Hnew. induction s as [|c s IH]; intros Hs; [constructor|].
  cbn in Hs. apply Forall_cons in Hs as [Hc Hs]. cbn [subst1]. rewrite chars_app.
  apply Forall_app. split; [|by apply IH].
  destruct (decide (c = a)); [done|]. cbn. repeat constructor. by apply Hc.
Qed.

Lemma subst1_id a new s : Forall (λ c, c ≠ a) (chars s) → subst1 a new s = s.
Proof.
  induction s as [|c s IH]; intros Hs; [done|].
  cbn in Hs. apply Forall_cons in Hs as [Hc Hs]. cbn [subst1].
  by rewrite decide_False, IH.
Qed.

Definition passes (s : string) : string :=
  replace (replace (replace (replace s "<" "\u003c") ">" "\u003e") "&" "\u0026")
          "'" "\u0027".

Lemma passes_subst1 s :
  passes s = subst1 "'" "\u0027" (subst1 "&" "\u0026" (subst1 ">" "\u003e"
               (subst1 "<" "\u003c" s))).
Proof. unfold passes. by rewrite !replace_char. Qed.

Lemma subst1_other a new c : c ≠ a → subst1 a new (String c "") = String c "".
Proof. intros Hne. cbn [subst1]. by rewrite decide_False. Qed.

Lemma passes_escape s : passes s = escape s.
Proof.
  rewrite passes_subst1. induction s as [|c s IH]; [done|].
  cbn [subst1 escape]. rewrite !subst1_app, IH. f_equal.
  unfold escape_char. repeat case_decide; subst; try done.
  by rewrite !subst1_other.
Qed.

Lemma passes_safe s : Forall (λ c, c ∉ unsafe) (chars (passes s)).
Proof.
  rewrite passes_subst1.
  set (s1 := subst1 "<" "\u003c" s). set (s2 := subst1 ">" "\u003e" s1).
  set (s3 := subst1 "&" "\u0026" s2).
  assert (Forall (λ c, c ≠ "<"%char) (chars s1)) as H1.
  { apply subst1_Forall; [by vm_compute; repeat constructor|].
    apply Forall_forall. auto. }
  assert (Forall (λ c, c ≠ "<"%char ∧ c ≠ ">"%char) (chars s2)) as H2.
  { apply subst1_Forall; [by vm_compute; repeat constructor|].
    eapply Forall_impl; [exact H1|]. cbn. auto. }
  assert (Forall (λ c, c ≠ "<"%char ∧ c ≠ ">"%char ∧ c ≠ "&"%char) (chars s3)) as H3.
  { apply subst1_Forall; [by vm_compute; repeat constructor|].
    eapply Forall_impl; [exact H2|]. cbn. intros c [? ?] ?. auto. }
  apply subst1_Forall.
  - vm_compute. repeat constructor; set_solver.
  - eapply Forall_impl; [exact H3|]. cbn. intros c (? & ? & ?) ?. unfold unsafe. set_solver.
Qed.

Section dumps_properties.
Context {Obj Kwargs : Type}.
Variable json_dumps : Obj → Kwargs → outcome string.
Implicit Types (obj : Obj) (kwargs : Kwargs) (dumps : option (Obj → Kwargs → outcome string)).

(** X19. Whatever the serializer returns, the result holds none of the
    characters [<], [>], [&] and ['] any more; the function raises only
    what the serializer raises. *)
Theorem htmlsafe_no_unsafe obj dumps kwargs :
  match htmlsafe_json_dumps json_dumps obj dumps kwargs with
  | Returned m => Forall (λ c, c ∉ unsafe) (chars (unwrap m))
  | Raised e => default json_dumps dumps obj kwargs = Raised e
  end.
Proof.
  unfold htmlsafe_json_dumps. cbn zeta.
  destruct (default json_dumps dumps obj kwargs) as [s|e]; [|done].
  apply passes_safe.
Qed.

(** X20. The four replacements one after the other amount to one pass that
    escapes each character on its own: no replacement interferes with a
    later one. *)
Theorem htmlsafe_one_pass obj dumps kwargs :
  htmlsafe_json_dumps json_dumps obj dumps kwargs =
  match default json_dumps dumps obj kwargs with
  | Returned s => Returned (mkMarkup (escape s))
  | Raised e => Raised e
  end.
Proof.
  unfold htmlsafe_json_dumps. cbn zeta.
  destruct (default json_dumps dumps obj kwargs) as [s|e]; [|done].
  by rewrite <- passes_escape.
Qed.

(** X21. A serialized string without the four characters is returned as it
    is; so escaping the result once more changes nothing. *)
Theorem htmlsafe_safe_unchanged obj dumps kwargs s :
  default json_dumps dumps obj kwargs = Returned s →
  Forall (λ c, c ∉ unsafe) (chars s) →
  htmlsafe_json_dumps json_dumps obj dumps kwargs = Returned (mkMarkup s).
Proof.
  intros E Hs. unfold htmlsafe_json_dumps. cbn zeta. rewrite E. do 2 f_equal.
  fold (passes s). rewrite passes_subst1.
  assert (∀ a, a ∈ unsafe → Forall (λ c, c ≠ a) (chars s)) as Hall.
  { intros a Ha. eapply Forall_impl; [exact Hs|]. cbn. intros c Hc ->. done. }
  rewrite (subst1_id "<"), (subst1_id ">"), (subst1_id "&"), (subst1_id "'");
    try done; apply Hall; unfold unsafe; set_solver.
Qed.
End dumps_properties.

(** X21 with a serializer that returns [[1, 2]]. *)
Lemma htmlsafe_safe_unchanged_witness :
  Forall (λ c, c ∉ unsafe) (chars "[1, 2]") ∧
  htmlsafe_json_dumps (λ (_ _ : unit), Returned "[1, 2]") tt None tt
  = Returned (mkMarkup "[1, 2]").
Proof.
  assert (Forall (λ c, c ∉ unsafe) (chars "[1, 2]")) as Hs.
  { unfold unsafe. cbn. repeat (constructor; [set_solver|]). constructor. }
  split; [exact Hs|].
  exact (htmlsafe_safe_unchanged (λ (_ _ : unit), Returned "[1, 2]") tt None tt "[1, 2]"
           eq_refl Hs).
Defined.
End HtmlSafe.

(** * jinja2.utils.import_string (lines 106-127) *)

Module ImportString.
Import Stdlib.Strings.Ascii.

(** [sep in s] for a separator of one character. *)
Fixpoint contains (sep : ascii) (s : string) : bool :=
  match s with
  | EmptyString => false
  | String c s' => if decide (c = sep) then true else contains sep s'
  end.

(** [s.split(sep, 1)]: the parts before and after the first [sep]; [None]
    stands for the list of one element that Python returns when there is no
    [sep]. *)
Fixpoint split_once (sep : ascii) (s : string) : option (string * string) :=
  match s with
  | EmptyString => None
  | String c s' =>
      if decide (c = sep) then Some (EmptyString, s')
      else prod_map (String c) id <$> split_once sep s'
  end.

(** [s.rpartition(sep)]: the parts around the last [sep], and two empty
    strings followed by [s] when there is none. *)
Fixpoint rpartition (sep : ascii) (s : string) : string * string * string :=
  match s with
  | EmptyString => (EmptyString, EmptyString, EmptyString)
  | String c s' =>
      match rpartition sep s' with
      | (_, EmptyString, _) =>
          if decide (c = sep) then (EmptyString, String sep EmptyString, s')
          else (EmptyString, EmptyString, s)
      | (before, found, after) => (String c before, found, after)
      end
  end.

Section import_string.
(** Objects (modules among them) and exceptions; [caught e] says that [e] is
    an instance of [ImportError] or [AttributeError]. *)
Context {Obj Exc : Type}.
Variable caught : Exc → bool.
(** [__import__(name, None, None, fromlist)] and [getattr(o, name)]. *)
Variable import_ : string → list string → Exc + Obj.
Variable getattr : Obj → string → Exc + Obj.

(** What a call gives: an object, [None], or an exception. *)
Inductive result := Value (o : Obj) | NoValue | Raises (e : Exc).

(** The body of the [try] statement. *)
Definition lookup_name (import_name : string) : Exc + Obj :=
  if contains ":" import_name then
    match split_once ":" import_name with
    | Some (module, obj) =>
        match import_ module [obj] with
        | inr m => getattr m obj
        | inl e => inl e
        end
    | None => import_ import_name []
    end
  else if contains "." import_name then
    let '(module, _, obj) := rpartition "." import_name in
    match import_ module [obj] with
    | inr m => getattr m obj
    | inl e => inl e
    end
  else import_ import_name [].

Definition import_string (import_name : string) (silent : bool) : result :=
  match lookup_name import_name with
  | inr o => Value o
  | inl e =>
      if caught e then (if negb silent then Raises e else NoValue)
      else Raises e
  end.

(** ** Properties *)

Lemma contains_app c s t : contains c (s +:+ t) = contains c s || contains c t.
Proof.
  induction s as [|x s IH]; [done|]. rewrite string_app_cons. cbn.
  by destruct (decide (x = c)).
Qed.

Lemma split_once_first c m o :
  contains c m = false → split_once c (m +:+ String c o) = Some (m, o).
Proof.
  induction m as [|x m IH]; intros Hm.
  - rewrite string_app_nil_l. cbn. by rewrite decide_True.
  - rewrite string_app_cons. cbn in *.
    destruct (decide (x = c)); [done|]. by rewrite IH.
Qed.

Lemma rpartition_none c s :
  contains c s = false → rpartition c s = (EmptyString, EmptyString, s).
Proof.
  induction s as [|x s IH]; [done|]. cbn. destruct (decide (x = c)); [done|].
  intros Hs. by rewrite IH.
Qed.

Lemma rpartition_last c m o :
  contains c o = false → rpartition c (m +:+ String c o) = (m, String c EmptyString, o).
Proof.
  intros Ho. induction m as [|x m IH].
  - rewrite string_app_nil_l. cbn. by rewrite rpartition_none, decide_True.
  - rewrite string_app_cons. cbn. by rewrite IH.
Qed.

(** The object [obj] of the module [module]. *)
Definition attribute_of (module obj : string) : Exc + Obj :=
  match import_ module [obj] with
  | inr m => getattr m obj
  | inl e => inl e
  end.

(** X22. The two notations: [module:obj] is split at the first colon,
    whatever [obj] holds; [module.obj] is split at the last dot when the
    name holds no colon; both import [module] and take its attribute
    [obj], so they agree whenever both can be used. *)
Theorem import_string_notations (module obj : string) (silent : bool) :
  contains ":" module = false →
  (import_string (module +:+ ":" +:+ obj) silent =
   match attribute_of module obj with
   | inr o => Value o
   | inl e => if caught e && silent then NoValue else Raises e
   end) ∧
  (contains ":" obj = false → contains "." obj = false →
   import_string (module +:+ "." +:+ obj) silent =
   import_string (module +:+ ":" +:+ obj) silent).
Proof.
  intros Hm. change (":" +:+ obj) with (String ":" obj).
  change ("." +:+ obj) with (String "." obj).
  assert (lookup_name (module +:+ String ":" obj) = attribute_of module obj) as Ecolon.
  { unfold lookup_name. rewrite contains_app, Hm. cbn [orb contains].
    rewrite decide_True by done. by rewrite split_once_first. }
  split.
  - unfold import_string. rewrite Ecolon. destruct (attribute_of module obj) as [e|o]; [|done].
    by destruct (caught e), silent.
  - intros Ho1 Ho2. unfold import_string. rewrite Ecolon.
    assert (lookup_name (module +:+ String "." obj) = attribute_of module obj) as ->; [|done].
    unfold lookup_name. rewrite !contains_app, Hm. cbn [orb contains].
    rewrite decide_False by done. rewrite Ho1, decide_True by done.
    rewrite orb_true_r. by rewrite rpartition_last.
Qed.

End import_string.

(** X22 with modules and objects named by their paths: [a.b:c] and
    [a.b.c]. *)
Lemma import_string_notations_witness :
  contains ":" "a.b" = false ∧
  import_string (λ _ : unit, true) (λ name _, inr name)
                (λ (m : string) name, inr (m +:+ "/" +:+ name)) "a.b.c" false
  = Value "a.b/c".
Proof.
  split; [reflexivity|].
  destruct (import_string_notations (λ _ : unit, true) (λ name _, inr name)
              (λ (m : string) name, inr (m +:+ "/" +:+ name)) "a.b" "c" false eq_refl)
    as [H1 H2].
  exact (eq_trans (H2 eq_refl eq_refl) H1).
Defined.
End ImportString.

(** * jinja2.utils.select_autoescape (lines 555-608) *)

Module SelectAutoescape.
Import Stdlib.Strings.Ascii.

(** [s.lstrip(c)] for one character [c]. *)
Fixpoint lstrip (c : ascii) (s : string) : string :=
  match s with
  | EmptyString => EmptyString
  | String x s' => if decide (x = c) then lstrip c s' else s
  end.

(** [s.endswith(suffix)]. *)
Fixpoint endswith (s suffix : string) : bool :=
  if decide (s = suffix) then true
  else match s with
       | EmptyString => false
       | String _ s' => endswith s' suffix
       end.

Section select_autoescape.
(** [str.lower]. *)
Variable lower : string → string.

(** A pattern of [enabled_patterns] and [disabled_patterns]. *)
Definition pattern (x : string) : string := "." +:+ lower (lstrip "." x).

(** The function and the closure [autoescape] it returns; an argument that
    is [None] is one the caller leaves out. *)
Definition select_autoescape (enabled_extensions disabled_extensions : option (list string))
    (default_for_string default_ : option bool) (template_name : option string) : bool :=
  let enabled_patterns := pattern <$> default ["html"; "htm"; "xml"] enabled_extensions in
  let disabled_patterns := pattern <$> default [] disabled_extensions in
  match template_name with
  | None => default true default_for_string
  | Some template_name =>
      let template_name := lower template_name in
      if existsb (endswith template_name) enabled_patterns then true
      else if existsb (endswith template_name) disabled_patterns then false
      else default false default_
  end.

(** ** Properties *)

Fixpoint has (c : ascii) (s : string) : bool :=
  match s with
  | EmptyString => false
  | String x s' => if decide (x = c) then true else has c s'
  end.

Lemma endswith_app (s t : string) : endswith (s +:+ t) t = true.
Proof.
  induction s as [|x s IH].
  - rewrite string_app_nil_l. destruct t; cbn; by rewrite decide_True.
  - rewrite string_app_cons. cbn [endswith]. rewrite IH. by destruct (decide _).
Qed.

Lemma endswith_has (c : ascii) (s t : string) :
  has c s = false → endswith s (String c t) = false.
Proof.
  induction s as [|x s IH]; intros Hs; cbn [endswith].
  - by rewrite decide_False.
  - cbn in Hs. destruct (decide (x = c)) as [|Hne]; [done|].
    rewrite IH by done. rewrite decide_False; [done|]. congruence.
Qed.

Lemma existsb_endswith_has (s : string) (exts : list string) :
  has "." s = false → existsb (endswith s) (pattern <$> exts) = false.
Proof.
  intros Hs. induction exts as [|e exts IH]; [done|]. cbn [fmap list_fmap existsb].
  rewrite IH, orb_false_r. unfold pattern.
  change ("." +:+ lower (lstrip "." e)) with (String "." (lower (lstrip "." e))).
  by apply endswith_has.
Qed.

Lemma existsb_elem {A} (f : A → bool) (l : list A) (x : A) :
  x ∈ l → f x = true → existsb f l = true.
Proof.
  intros Hx Hf. induction l as [|y l IH]; [by apply elem_of_nil in Hx|].
  cbn. apply elem_of_cons in Hx as [->|Hx]; [by rewrite Hf|].
  rewrite IH by done. apply orb_true_r.
Qed.

(** X24. A template whose lowered name ends in a dot and the pattern of
    some entry of [enabled_extensions] (the entry without its leading dots,
    lowered) is autoescaped, whatever [disabled_extensions] and [default]
    say. *)
Theorem enabled_extension_wins (enabled : list string) disabled default_for_string default_
    (name base e : string) :
  e ∈ enabled →
  lower name = base +:+ "." +:+ lower (lstrip "." e) →
  select_autoescape (Some enabled) disabled default_for_string default_ (Some name) = true.
Proof.
  intros Hin Hname. unfold select_autoescape. cbn zeta. cbn [default from_option].
  change (id enabled) with enabled.
  assert (existsb (endswith (lower name)) (pattern <$> enabled) = true) as ->; [|done].
  apply (existsb_elem _ _ (pattern e)).
  - apply list_elem_of_fmap. eauto.
  - unfold pattern. rewrite Hname. apply endswith_app.
Qed.

(** X25. A template loaded from a string gets [default_for_string], and a
    template whose lowered name holds no dot gets [default], whatever the
    extensions are: every pattern starts with a dot. *)
Theorem no_extension_default enabled disabled default_for_string default_ (name : string) :
  select_autoescape enabled disabled default_for_string default_ None
    = default true default_for_string ∧
  (has "." (lower name) = false →
   select_autoescape enabled disabled default_for_string default_ (Some name)
     = default false default_).
Proof.
  split; [done|]. intros Hn. unfold select_autoescape. cbn zeta.
  by rewrite !existsb_endswith_has.
Qed.
End select_autoescape.

(** [str.lower] on unaccented Latin letters. *)
Definition ascii_lower (c : ascii) : ascii :=
  let n := nat_of_ascii c in
  if (65 <=? n) && (n <=? 90) then ascii_of_nat (n + 32) else c.

Fixpoint lower_latin (s : string) : string :=
  match s with
  | EmptyString => EmptyString
  | String c s' => String (ascii_lower c) (lower_latin s')
  end.

(** X24 at [enabled_extensions=(".HTML",)], [disabled_extensions=("html",)]
    and the template [Page.Html]. *)
Lemma enabled_extension_wins_witness :
  select_autoescape lower_latin (Some [".HTML"]) (Some ["html"]) None None
    (Some "Page.Html") = true.
Proof.
  apply (enabled_extension_wins lower_latin [".HTML"] (Some ["html"]) None None
           "Page.Html" "page" ".HTML").
  - set_solver.
  - reflexivity.
Defined.

(** X25 at the template [README]. *)
Lemma no_extension_default_witness :
  has "." (lower_latin "README") = false ∧
  select_autoescape lower_latin None None None None (Some "README") = false.
Proof.
  split; [reflexivity|].
  exact (proj2 (no_extension_default lower_latin None None None None "README") eq_refl).
Defined.
End SelectAutoescape.
